(** * dax86: the execution core (instruction handlers and dispatch table)

    A shallow embedding of [emulator.h], [instructions.c] and the near
    conditional jumps, with the machine integers of the C code written as
    [Z] and their wrap-around made explicit.  The accessor layer
    ([emulator_functions.c]) and the ModR/M layer ([modrm.c]) are reached
    from the handlers only through their call sites; they are modelled from
    the specification and marked as such. *)

From Stdlib Require Import ZArith Lia.
From stdpp Require Import base list list_numbers strings pretty.

Local Open Scope Z_scope.

(** ** Machine integers *)

(** [uint8_t], [uint32_t] and [uint64_t] values are integers reduced modulo
    the width; [int8_t] and [int32_t] are their two's-complement readings. *)
Definition wrap8 (z : Z) : Z := z mod 2 ^ 8.
Definition wrap32 (z : Z) : Z := z mod 2 ^ 32.
Definition wrap64 (z : Z) : Z := z mod 2 ^ 64.

Definition signed8 (z : Z) : Z :=
  if Z.testbit (wrap8 z) 7 then wrap8 z - 2 ^ 8 else wrap8 z.
Definition signed32 (z : Z) : Z :=
  if Z.testbit (wrap32 z) 31 then wrap32 z - 2 ^ 32 else wrap32 z.

(** ** Machine state: [emulator.h] *)

(** [enum Register]: the constants are array indices. *)
Definition EAX : Z := 0.
Definition ECX : Z := 1.
Definition EDX : Z := 2.
Definition EBX : Z := 3.
Definition ESP : Z := 4.
Definition EBP : Z := 5.
Definition ESI : Z := 6.
Definition EDI : Z := 7.
Definition REGISTERS_COUNT : Z := 8.

Record Gdtr := mkGdtr { limit : Z; base : Z }.

(** [memory] is the byte buffer the state points to and [registers] the
    eight-element array; an index past the end of either is outside the C
    program's defined behaviour, and here reads 0 and writes nothing. *)
Record Emulator := mkEmulator {
  eflags : Z;
  registers : list Z;
  segment_registers : list Z;
  control_registers : list Z;
  memory : list Z;
  eip : Z;
  gdtr : Gdtr;
  exception : Z
}.

Definition with_eflags (emu : Emulator) (v : Z) : Emulator :=
  mkEmulator v (registers emu) (segment_registers emu)
    (control_registers emu) (memory emu) (eip emu) (gdtr emu) (exception emu).
Definition with_registers (emu : Emulator) (v : list Z) : Emulator :=
  mkEmulator (eflags emu) v (segment_registers emu)
    (control_registers emu) (memory emu) (eip emu) (gdtr emu) (exception emu).
Definition with_memory (emu : Emulator) (v : list Z) : Emulator :=
  mkEmulator (eflags emu) (registers emu) (segment_registers emu)
    (control_registers emu) v (eip emu) (gdtr emu) (exception emu).
Definition with_eip (emu : Emulator) (v : Z) : Emulator :=
  mkEmulator (eflags emu) (registers emu) (segment_registers emu)
    (control_registers emu) (memory emu) v (gdtr emu) (exception emu).

(** [emu->eip += n] on a [uint32_t]. *)
Definition add_eip (emu : Emulator) (n : Z) : Emulator :=
  with_eip emu (wrap32 (eip emu + n)).

(** ** Accessors ([emulator_functions.c]) *)

(** Modelled from the spec: [get_memory8] of [emulator_functions.c] (the
    file is not among the sources): the byte at an absolute address
    (section 4.3). *)
Definition get_memory8 (emu : Emulator) (address : Z) : Z :=
  wrap8 (default 0 (memory emu !! Z.to_nat address)).

(** Modelled from the spec: [set_memory8] of [emulator_functions.c]: store
    the low byte of [value] at an absolute address (section 4.3). *)
Definition set_memory8 (emu : Emulator) (address : Z) (value : Z) : Emulator :=
  with_memory emu (<[Z.to_nat address := wrap8 value]> (memory emu)).

(** Modelled from the spec: [get_memory32] of [emulator_functions.c]: four
    bytes read little-endian (sections 4.3 and 6). *)
Definition get_memory32 (emu : Emulator) (address : Z) : Z :=
  little_endian_to_Z 8
    ((fun i => get_memory8 emu (wrap32 (address + i))) <$> [0; 1; 2; 3]).

(** Modelled from the spec: [set_memory32] of [emulator_functions.c]: four
    bytes written little-endian, lowest address first (sections 4.3
    and 6). *)
Definition set_memory32 (emu : Emulator) (address : Z) (value : Z) : Emulator :=
  foldl (fun e ib => set_memory8 e (wrap32 (address + ib.1)) ib.2) emu
    (zip [0; 1; 2; 3] (Z_to_little_endian 4 8 value)).

(** Modelled from the spec: [get_code8] of [emulator_functions.c]: the
    unsigned byte of the instruction stream at an offset from the current
    [eip], which is left alone (section 4.3). *)
Definition get_code8 (emu : Emulator) (index : Z) : Z :=
  get_memory8 emu (wrap32 (eip emu + index)).

(** Modelled from the spec: [get_sign_code8] of [emulator_functions.c]: that
    byte sign-extended (section 4.3). *)
Definition get_sign_code8 (emu : Emulator) (index : Z) : Z :=
  signed8 (get_code8 emu index).

(** Modelled from the spec: [get_code32] of [emulator_functions.c]: the
    unsigned 32-bit value at an offset from the current [eip]
    (section 4.3). *)
Definition get_code32 (emu : Emulator) (index : Z) : Z :=
  get_memory32 emu (wrap32 (eip emu + index)).

(** Modelled from the spec: [get_sign_code32] of [emulator_functions.c]:
    that value read as signed (section 4.3). *)
Definition get_sign_code32 (emu : Emulator) (index : Z) : Z :=
  signed32 (get_code32 emu index).

(** Modelled from the spec: [get_register32] of [emulator_functions.c]: read
    a register by index (section 4.3). *)
Definition get_register32 (emu : Emulator) (index : Z) : Z :=
  wrap32 (default 0 (registers emu !! Z.to_nat index)).

(** Modelled from the spec: [set_register32] of [emulator_functions.c]:
    write a register by index (section 4.3). *)
Definition set_register32 (emu : Emulator) (index : Z) (value : Z) : Emulator :=
  with_registers emu (<[Z.to_nat index := wrap32 value]> (registers emu)).

(** Modelled from the spec: [push32] of [emulator_functions.c]: decrement
    [ESP] by 4, then store (section 4.3). *)
Definition push32 (emu : Emulator) (value : Z) : Emulator :=
  let address := wrap32 (get_register32 emu ESP - 4) in
  let emu := set_register32 emu ESP address in
  set_memory32 emu address value.

(** Modelled from the spec: [pop32] of [emulator_functions.c]: load, then
    increment [ESP] by 4 (section 4.3).  The value popped is returned with
    the new state. *)
Definition pop32 (emu : Emulator) : Z * Emulator :=
  let address := get_register32 emu ESP in
  let ret := get_memory32 emu address in
  (ret, set_register32 emu ESP (wrap32 (address + 4))).

(** ** Flag evaluator *)

(** Bit positions of the condition codes in [eflags] (the layout comment of
    [emulator.h]): CF 0, ZF 6, SF 7, OF 11. *)
Definition CARRY_BIT : Z := 0.
Definition ZERO_BIT : Z := 6.
Definition SIGN_BIT : Z := 7.
Definition OVERFLOW_BIT : Z := 11.

(** Modelled from the spec: [is_carry] of [emulator_functions.c]: bit 0 of
    [eflags] (sections 3 and 4.1). *)
Definition is_carry (emu : Emulator) : bool := Z.testbit (eflags emu) CARRY_BIT.

(** Modelled from the spec: [is_zero] of [emulator_functions.c]: bit 6 of
    [eflags] (sections 3 and 4.1). *)
Definition is_zero (emu : Emulator) : bool := Z.testbit (eflags emu) ZERO_BIT.

(** Modelled from the spec: [is_sign] of [emulator_functions.c]: bit 7 of
    [eflags] (sections 3 and 4.1). *)
Definition is_sign (emu : Emulator) : bool := Z.testbit (eflags emu) SIGN_BIT.

(** Modelled from the spec: [is_overflow] of [emulator_functions.c]: bit 11
    of [eflags] (sections 3 and 4.1). *)
Definition is_overflow (emu : Emulator) : bool :=
  Z.testbit (eflags emu) OVERFLOW_BIT.

(** Modelled from the spec: setting or clearing one flag bit, the way the
    update routine of section 4.1 touches [eflags]: the bit is or-ed in or
    masked out, the other bits stay. *)
Definition set_flag (emu : Emulator) (bit : Z) (on : bool) : Emulator :=
  with_eflags emu
    (if on then Z.lor (eflags emu) (Z.shiftl 1 bit)
     else Z.land (eflags emu) (Z.lnot (Z.shiftl 1 bit))).

(** Modelled from the spec: [update_eflags_sub] of [emulator_functions.c]
    (section 4.1).  [result] is the [uint64_t] difference its callers in
    [instructions.c] pass; it is negative at 33-bit precision, that is a
    borrow occurred, when its bit 32 is set. *)
Definition update_eflags_sub (emu : Emulator) (v1 v2 result : Z) : Emulator :=
  let sign1 := Z.testbit v1 31 in
  let sign2 := Z.testbit v2 31 in
  let signr := Z.testbit (wrap32 result) 31 in
  let emu := set_flag emu CARRY_BIT (Z.testbit result 32) in
  let emu := set_flag emu ZERO_BIT (wrap32 result =? 0) in
  let emu := set_flag emu SIGN_BIT signr in
  set_flag emu OVERFLOW_BIT
    (negb (Bool.eqb sign1 sign2) && negb (Bool.eqb sign1 signr)).

(** ** Operand decoder ([modrm.c]) *)

(** Modelled from the spec: the decode result of [modrm.h] (section 3):
    the three fields of the byte, the decoded displacement and the number of
    bytes the decoder consumed.  The 8- and 32-bit displacements share
    [disp]. *)
Record ModRM := mkModRM {
  mod_ : Z;
  opcode : Z;
  rm : Z;
  disp : Z;
  consumed : Z
}.

(** Modelled from the spec: the middle field read as a register selector
    rather than as a group sub-opcode (section 3). *)
Definition reg_index (modrm : ModRM) : Z := opcode modrm.

(** Modelled from the spec: [parse_modrm] of [modrm.c].  The field split and
    the displacement size chosen by [mod] are those of sections 4.2 and 6.
    Its call sites in [instructions.c] pass the state and an out-record, use
    no returned value, add no ModR/M length to [eip] themselves and read the
    immediate that follows at offset 0 from [eip]; so the decoder is a state
    transformer that leaves [eip] just past the bytes it consumed. *)
Definition parse_modrm (emu : Emulator) : Emulator * ModRM :=
  let code := get_code8 emu 0 in
  let mod_ := Z.shiftr (Z.land code 0xC0) 6 in
  let opcode := Z.shiftr (Z.land code 0x38) 3 in
  let rm := Z.land code 0x07 in
  let emu := add_eip emu 1 in
  if mod_ =? 1 then
    (add_eip emu 1, mkModRM mod_ opcode rm (get_sign_code8 emu 0) 2)
  else if mod_ =? 2 then
    (add_eip emu 4, mkModRM mod_ opcode rm (get_sign_code32 emu 0) 5)
  else
    (emu, mkModRM mod_ opcode rm 0 1).

(** Modelled from the spec: the effective address of a memory operand, of
    [modrm.c]: the register named by [rm] plus the displacement
    (section 4.2). *)
Definition calc_memory_address (emu : Emulator) (modrm : ModRM) : Z :=
  wrap32 (get_register32 emu (rm modrm) + disp modrm).

(** Modelled from the spec: [get_rm32] of [modrm.c]: the register [rm] when
    [mod] is 3, memory at the effective address otherwise (sections 4.2
    and 4.3). *)
Definition get_rm32 (emu : Emulator) (modrm : ModRM) : Z :=
  if mod_ modrm =? 3 then get_register32 emu (rm modrm)
  else get_memory32 emu (calc_memory_address emu modrm).

(** Modelled from the spec: [set_rm32] of [modrm.c]: the write to the same
    operand (sections 4.2 and 4.3). *)
Definition set_rm32 (emu : Emulator) (modrm : ModRM) (value : Z) : Emulator :=
  if mod_ modrm =? 3 then set_register32 emu (rm modrm) value
  else set_memory32 emu (calc_memory_address emu modrm) value.

(** Modelled from the spec: [get_r32] of [modrm.c]: the register named by
    the [reg] field (section 4.3). *)
Definition get_r32 (emu : Emulator) (modrm : ModRM) : Z :=
  get_register32 emu (reg_index modrm).

(** Modelled from the spec: [set_r32] of [modrm.c]: the write to that
    register (section 4.3). *)
Definition set_r32 (emu : Emulator) (modrm : ModRM) (value : Z) : Emulator :=
  set_register32 emu (reg_index modrm) value.

(** ** Instruction handlers ([instructions.c]) *)

(** A handler returns, or it ends the process through [exit] after printing
    a line. *)
Inductive outcome :=
  | Returns (emu : Emulator)
  | Exits (status : Z) (printed : string).

(** The line feed that ends a [printf] format. *)
Definition newline : string := String (Ascii.ascii_of_nat 10) EmptyString.

Definition short_jump (emu : Emulator) : Emulator :=
  let offset := signed8 (get_sign_code8 emu 1) in
  add_eip emu (offset + 2).

Definition near_jump (emu : Emulator) : Emulator :=
  let diff := signed32 (get_sign_code32 emu 1) in
  add_eip emu (diff + 5).

(** The register index is the opcode byte minus 0xB8.  For a byte outside
    0xB8-0xBF the C store [emu->registers[reg] = value] lands outside
    [registers]; the list update below drops it, so this definition stands
    for the handler on the bytes the table binds it to and no further. *)
Definition mov_r32_imm32 (emu : Emulator) : Emulator :=
  let reg := wrap8 (get_code8 emu 0 - 0xB8) in
  let value := get_code32 emu 1 in
  let emu := with_registers emu (<[Z.to_nat reg := value]> (registers emu)) in
  add_eip emu 5.

Definition mov_rm32_imm32 (emu : Emulator) : Emulator :=
  let emu := add_eip emu 1 in
  let '(emu, modrm) := parse_modrm emu in
  let value := get_code32 emu 0 in
  let emu := add_eip emu 4 in
  set_rm32 emu modrm value.

Definition mov_rm32_r32 (emu : Emulator) : Emulator :=
  let emu := add_eip emu 1 in
  let '(emu, modrm) := parse_modrm emu in
  let r32 := get_r32 emu modrm in
  set_rm32 emu modrm r32.

Definition mov_r32_rm32 (emu : Emulator) : Emulator :=
  let emu := add_eip emu 1 in
  let '(emu, modrm) := parse_modrm emu in
  let rm32 := get_rm32 emu modrm in
  set_r32 emu modrm rm32.

Definition add_rm32_r32 (emu : Emulator) : Emulator :=
  let emu := add_eip emu 1 in
  let '(emu, modrm) := parse_modrm emu in
  let r32 := get_r32 emu modrm in
  let rm32 := get_rm32 emu modrm in
  set_rm32 emu modrm (wrap32 (r32 + rm32)).

Definition add_rm32_imm8 (emu : Emulator) (modrm : ModRM) : Emulator :=
  let rm32 := get_rm32 emu modrm in
  let imm8 := wrap32 (get_sign_code8 emu 0) in
  let emu := add_eip emu 1 in
  set_rm32 emu modrm (wrap32 (rm32 + imm8)).

Definition sub_rm32_imm8 (emu : Emulator) (modrm : ModRM) : Emulator :=
  let rm32 := get_rm32 emu modrm in
  let imm8 := wrap32 (get_sign_code8 emu 0) in
  let emu := add_eip emu 1 in
  let result := wrap64 (rm32 - imm8) in
  let emu := set_rm32 emu modrm result in
  update_eflags_sub emu rm32 imm8 result.

Definition cmp_rm32_imm8 (emu : Emulator) (modrm : ModRM) : Emulator :=
  let rm32 := get_rm32 emu modrm in
  let imm8 := wrap32 (get_sign_code8 emu 0) in
  let emu := add_eip emu 1 in
  let result := wrap64 (rm32 - imm8) in
  update_eflags_sub emu rm32 imm8 result.

Definition cmp_r32_rm32 (emu : Emulator) : Emulator :=
  let emu := add_eip emu 1 in
  let '(emu, modrm) := parse_modrm emu in
  let r32 := get_r32 emu modrm in
  let rm32 := get_rm32 emu modrm in
  let result := wrap64 (r32 - rm32) in
  update_eflags_sub emu r32 rm32 result.

Definition code_83 (emu : Emulator) : outcome :=
  let emu := add_eip emu 1 in
  let '(emu, modrm) := parse_modrm emu in
  if opcode modrm =? 0 then Returns (add_rm32_imm8 emu modrm)
  else if opcode modrm =? 5 then Returns (sub_rm32_imm8 emu modrm)
  else if opcode modrm =? 7 then Returns (cmp_rm32_imm8 emu modrm)
  else
    Exits 1
      ("Not implemented: Op: 83 with ModR/M Op: " +:+ pretty (opcode modrm)
         +:+ newline).

Definition inc_rm32 (emu : Emulator) (modrm : ModRM) : Emulator :=
  let value := get_rm32 emu modrm in
  set_rm32 emu modrm (wrap32 (value + 1)).

Definition code_ff (emu : Emulator) : outcome :=
  let emu := add_eip emu 1 in
  let '(emu, modrm) := parse_modrm emu in
  if opcode modrm =? 0 then Returns (inc_rm32 emu modrm)
  else
    Exits 1
      ("Not implemented: Op: FF with ModR/M Op: " +:+ pretty (opcode modrm)
         +:+ newline).

(** As for [mov_r32_imm32]: the index is the opcode byte minus 0x50, within
    [registers] on the bytes 0x50-0x57 the table binds. *)
Definition push_r32 (emu : Emulator) : Emulator :=
  let reg := wrap8 (get_code8 emu 0 - 0x50) in
  let emu := push32 emu (get_register32 emu reg) in
  add_eip emu 1.

Definition push_imm32 (emu : Emulator) : Emulator :=
  let value := get_code32 emu 1 in
  let emu := push32 emu value in
  add_eip emu 5.

Definition push_imm8 (emu : Emulator) : Emulator :=
  let value := get_code8 emu 1 in
  let emu := push32 emu value in
  add_eip emu 2.

(** As for [mov_r32_imm32]: the index is the opcode byte minus 0x58, within
    [registers] on the bytes 0x58-0x5F the table binds. *)
Definition pop_r32 (emu : Emulator) : Emulator :=
  let reg := wrap8 (get_code8 emu 0 - 0x58) in
  let '(value, emu) := pop32 emu in
  let emu := set_register32 emu reg value in
  add_eip emu 1.

(** [offset + 5] is computed on [int] and added to the unsigned [eip]; the
    sum is taken modulo 2^32 either way. *)
Definition call_rel32 (emu : Emulator) : Emulator :=
  let offset := get_sign_code32 emu 1 in
  let emu := push32 emu (wrap32 (eip emu + 5)) in
  add_eip emu (offset + 5).

Definition ret (emu : Emulator) : Emulator :=
  let '(value, emu) := pop32 emu in
  with_eip emu value.

Definition leave (emu : Emulator) : Emulator :=
  let ebp_val := get_register32 emu EBP in
  let emu := set_register32 emu ESP ebp_val in
  let '(value, emu) := pop32 emu in
  let emu := set_register32 emu EBP value in
  add_eip emu 1.

(** The macro [DEFINE_JX(flag, is_flag)] expands to the two handlers
    [j##flag] and [jn##flag]. *)
Definition DEFINE_JX_j (is_flag : Emulator -> bool) (emu : Emulator) : Emulator :=
  let diff := if is_flag emu then get_sign_code8 emu 1 else 0 in
  add_eip emu (diff + 2).
Definition DEFINE_JX_jn (is_flag : Emulator -> bool) (emu : Emulator) : Emulator :=
  let diff := if is_flag emu then 0 else get_sign_code8 emu 1 in
  add_eip emu (diff + 2).

Definition jc := DEFINE_JX_j is_carry.
Definition jnc := DEFINE_JX_jn is_carry.
Definition jz := DEFINE_JX_j is_zero.
Definition jnz := DEFINE_JX_jn is_zero.
Definition js := DEFINE_JX_j is_sign.
Definition jns := DEFINE_JX_jn is_sign.
Definition jo := DEFINE_JX_j is_overflow.
Definition jno := DEFINE_JX_jn is_overflow.

Definition jl (emu : Emulator) : Emulator :=
  let diff :=
    if negb (Bool.eqb (is_sign emu) (is_overflow emu))
    then get_sign_code8 emu 1 else 0 in
  add_eip emu (diff + 2).

Definition jle (emu : Emulator) : Emulator :=
  let diff :=
    if is_zero emu || negb (Bool.eqb (is_sign emu) (is_overflow emu))
    then get_sign_code8 emu 1 else 0 in
  add_eip emu (diff + 2).

(** *** Near conditional jumps (two-byte opcodes) *)

(** The macro [DEFINE_NEAR_JX(flag, is_flag)] expands to [j##flag##32] and
    [jn##flag##32]. *)
Definition DEFINE_NEAR_JX_j (is_flag : Emulator -> bool) (emu : Emulator)
  : Emulator :=
  let diff := if is_flag emu then get_sign_code32 emu 2 else 0 in
  add_eip emu (diff + 6).
Definition DEFINE_NEAR_JX_jn (is_flag : Emulator -> bool) (emu : Emulator)
  : Emulator :=
  let diff := if is_flag emu then 0 else get_sign_code32 emu 2 in
  add_eip emu (diff + 6).

Definition jc32 := DEFINE_NEAR_JX_j is_carry.
Definition jnc32 := DEFINE_NEAR_JX_jn is_carry.
Definition jz32 := DEFINE_NEAR_JX_j is_zero.
Definition jnz32 := DEFINE_NEAR_JX_jn is_zero.

Definition jna32 (emu : Emulator) : Emulator :=
  let diff :=
    if is_carry emu || is_zero emu then get_sign_code32 emu 2 else 0 in
  add_eip emu (diff + 6).

Definition ja32 (emu : Emulator) : Emulator :=
  let diff :=
    if negb (is_carry emu) && negb (is_zero emu)
    then get_sign_code32 emu 2 else 0 in
  add_eip emu (diff + 6).

Definition jg32 (emu : Emulator) : Emulator :=
  let diff :=
    if negb (is_zero emu) && Bool.eqb (is_sign emu) (is_overflow emu)
    then get_sign_code32 emu 2 else 0 in
  add_eip emu (diff + 6).

(** ** Dispatch table *)

(** The functions a table entry can point to.  A function pointer is
    modelled by the name of its function, [exec] gives the function. *)
Module Fn.
Inductive t :=
  | short_jump | near_jump
  | mov_r32_imm32 | mov_rm32_imm32 | mov_rm32_r32 | mov_r32_rm32
  | add_rm32_r32 | cmp_r32_rm32 | code_83 | code_ff
  | push_r32 | push_imm32 | push_imm8 | pop_r32
  | call_rel32 | ret | leave
  | jc | jnc | jz | jnz | js | jns | jo | jno | jl | jle
  | jc32 | jnc32 | jz32 | jnz32 | jna32 | ja32 | jg32.
End Fn.

Definition instruction_func_t := Fn.t.

Definition exec (f : instruction_func_t) (emu : Emulator) : outcome :=
  match f with
  | Fn.short_jump => Returns (short_jump emu)
  | Fn.near_jump => Returns (near_jump emu)
  | Fn.mov_r32_imm32 => Returns (mov_r32_imm32 emu)
  | Fn.mov_rm32_imm32 => Returns (mov_rm32_imm32 emu)
  | Fn.mov_rm32_r32 => Returns (mov_rm32_r32 emu)
  | Fn.mov_r32_rm32 => Returns (mov_r32_rm32 emu)
  | Fn.add_rm32_r32 => Returns (add_rm32_r32 emu)
  | Fn.cmp_r32_rm32 => Returns (cmp_r32_rm32 emu)
  | Fn.code_83 => code_83 emu
  | Fn.code_ff => code_ff emu
  | Fn.push_r32 => Returns (push_r32 emu)
  | Fn.push_imm32 => Returns (push_imm32 emu)
  | Fn.push_imm8 => Returns (push_imm8 emu)
  | Fn.pop_r32 => Returns (pop_r32 emu)
  | Fn.call_rel32 => Returns (call_rel32 emu)
  | Fn.ret => Returns (ret emu)
  | Fn.leave => Returns (leave emu)
  | Fn.jc => Returns (jc emu)
  | Fn.jnc => Returns (jnc emu)
  | Fn.jz => Returns (jz emu)
  | Fn.jnz => Returns (jnz emu)
  | Fn.js => Returns (js emu)
  | Fn.jns => Returns (jns emu)
  | Fn.jo => Returns (jo emu)
  | Fn.jno => Returns (jno emu)
  | Fn.jl => Returns (jl emu)
  | Fn.jle => Returns (jle emu)
  | Fn.jc32 => Returns (jc32 emu)
  | Fn.jnc32 => Returns (jnc32 emu)
  | Fn.jz32 => Returns (jz32 emu)
  | Fn.jnz32 => Returns (jnz32 emu)
  | Fn.jna32 => Returns (jna32 emu)
  | Fn.ja32 => Returns (ja32 emu)
  | Fn.jg32 => Returns (jg32 emu)
  end.

(** [instructions[op] = f]. *)
Definition bind (op : Z) (f : instruction_func_t)
    (table : list (option instruction_func_t)) :=
  <[Z.to_nat op := Some f]> table.

(** [for (i = 0; i < 8; i++) instructions[first + i] = f;] *)
Definition bind8 (first : Z) (f : instruction_func_t)
    (table : list (option instruction_func_t)) :=
  foldl (fun table i => bind (first + Z.of_nat i) f table) table (seq 0 8).

(** [init_instructions] builds the 256-entry table [instructions], in the
    order of its assignments; [memset] leaves every entry null first. *)
Definition init_instructions : list (option instruction_func_t) :=
  let instructions := replicate 256 None in
  let instructions := bind 0x3B Fn.cmp_r32_rm32 instructions in
  let instructions := bind8 0x50 Fn.push_r32 instructions in
  let instructions := bind8 0x58 Fn.pop_r32 instructions in
  let instructions := bind 0x68 Fn.push_imm32 instructions in
  let instructions := bind 0x6A Fn.push_imm8 instructions in
  let instructions := bind 0x70 Fn.jo instructions in
  let instructions := bind 0x71 Fn.jno instructions in
  let instructions := bind 0x72 Fn.jc instructions in
  let instructions := bind 0x73 Fn.jnc instructions in
  let instructions := bind 0x74 Fn.jz instructions in
  let instructions := bind 0x75 Fn.jnz instructions in
  let instructions := bind 0x78 Fn.js instructions in
  let instructions := bind 0x79 Fn.jns instructions in
  let instructions := bind 0x7C Fn.jl instructions in
  let instructions := bind 0x7E Fn.jle instructions in
  let instructions := bind8 0xB8 Fn.mov_r32_imm32 instructions in
  let instructions := bind 0x01 Fn.add_rm32_r32 instructions in
  let instructions := bind 0x83 Fn.code_83 instructions in
  let instructions := bind 0x89 Fn.mov_rm32_r32 instructions in
  let instructions := bind 0x8B Fn.mov_r32_rm32 instructions in
  let instructions := bind 0xC7 Fn.mov_rm32_imm32 instructions in
  let instructions := bind 0xE9 Fn.near_jump instructions in
  let instructions := bind 0xEB Fn.short_jump instructions in
  let instructions := bind 0xFF Fn.code_ff instructions in
  let instructions := bind 0xC3 Fn.ret instructions in
  let instructions := bind 0xE8 Fn.call_rel32 instructions in
  let instructions := bind 0xC9 Fn.leave instructions in
  instructions.

(** The global [instructions] after [init_instructions] has run, read at an
    opcode byte. *)
Definition instructions (op : Z) : option instruction_func_t :=
  mjoin (init_instructions !! Z.to_nat op).

(** ** Encodings, as the specification tabulates them *)

(** Displacement bytes selected by the [mod] field (section 4.2). *)
Definition disp_bytes (mod_ : Z) : Z :=
  if mod_ =? 1 then 1 else if mod_ =? 2 then 4 else 0.

(** The [mod] field of the ModR/M byte of the instruction at [eip], which
    follows the one-byte opcode. *)
Definition encoded_mod (emu : Emulator) : Z :=
  Z.shiftr (Z.land (get_code8 emu 1) 0xC0) 6.

(** The [reg/opcode] field of that byte. *)
Definition encoded_subop (emu : Emulator) : Z :=
  Z.shiftr (Z.land (get_code8 emu 1) 0x38) 3.

(** ModR/M-bytes: the ModR/M byte and its displacement. *)
Definition modrm_bytes (emu : Emulator) : Z := 1 + disp_bytes (encoded_mod emu).

(** The grouped opcodes and the sub-opcodes each implements. *)
Inductive group := Group83 | GroupFF.

Definition group_handler (g : group) : instruction_func_t :=
  match g with Group83 => Fn.code_83 | GroupFF => Fn.code_ff end.
Definition group_opcode (g : group) : string :=
  match g with Group83 => "83" | GroupFF => "FF" end.
Definition implemented (g : group) (subop : Z) : bool :=
  match g with
  | Group83 => (subop =? 0) || (subop =? 5) || (subop =? 7)
  | GroupFF => subop =? 0
  end.

(** The encoded length of the instruction at [eip], as tabulated, for the
    handlers that are not control transfers. *)
Definition encoded_length (f : instruction_func_t) (emu : Emulator) : option Z :=
  match f with
  | Fn.mov_r32_imm32 => Some 5
  | Fn.mov_rm32_imm32 => Some (1 + modrm_bytes emu + 4)
  | Fn.mov_rm32_r32 | Fn.mov_r32_rm32 | Fn.add_rm32_r32 | Fn.cmp_r32_rm32
  | Fn.code_ff => Some (1 + modrm_bytes emu)
  | Fn.code_83 => Some (1 + modrm_bytes emu + 1)
  | Fn.push_r32 | Fn.pop_r32 | Fn.leave => Some 1
  | Fn.push_imm32 => Some 5
  | Fn.push_imm8 => Some 2
  | _ => None
  end.

(** A grouped opcode is validly encoded when its sub-opcode is one the
    group implements; the other forms carry no such condition. *)
Definition valid_encoding (f : instruction_func_t) (emu : Emulator) : bool :=
  match f with
  | Fn.code_83 => implemented Group83 (encoded_subop emu)
  | Fn.code_ff => implemented GroupFF (encoded_subop emu)
  | _ => true
  end.

Definition differ (a b : bool) : bool := negb (Bool.eqb a b).

(** The condition each conditional jump tests, as tabulated. *)
Definition tested_condition (f : instruction_func_t) (emu : Emulator)
  : option bool :=
  match f with
  | Fn.jc | Fn.jc32 => Some (is_carry emu)
  | Fn.jnc | Fn.jnc32 => Some (negb (is_carry emu))
  | Fn.jz | Fn.jz32 => Some (is_zero emu)
  | Fn.jnz | Fn.jnz32 => Some (negb (is_zero emu))
  | Fn.js => Some (is_sign emu)
  | Fn.jns => Some (negb (is_sign emu))
  | Fn.jo => Some (is_overflow emu)
  | Fn.jno => Some (negb (is_overflow emu))
  | Fn.jl => Some (differ (is_sign emu) (is_overflow emu))
  | Fn.jle => Some (is_zero emu || differ (is_sign emu) (is_overflow emu))
  | Fn.jna32 => Some (is_carry emu || is_zero emu)
  | Fn.ja32 => Some (negb (is_carry emu || is_zero emu))
  | Fn.jg32 =>
      Some (negb (is_zero emu) && Bool.eqb (is_sign emu) (is_overflow emu))
  | _ => None
  end.

(** Short forms are two bytes long, near forms six. *)
Definition is_near (f : instruction_func_t) : bool :=
  match f with
  | Fn.jc32 | Fn.jnc32 | Fn.jz32 | Fn.jnz32 | Fn.jna32 | Fn.ja32 | Fn.jg32 =>
      true
  | _ => false
  end.
Definition fixed_length (f : instruction_func_t) : Z :=
  if is_near f then 6 else 2.

(** The displacement encoded in the jump at [eip]. *)
Definition displacement (f : instruction_func_t) (emu : Emulator) : Z :=
  if is_near f then get_sign_code32 emu 2 else get_sign_code8 emu 1.

(** The pairs generated by the two macros, and [jna32]/[ja32]. *)
Inductive jump_pair := JC | JZ | JS | JO | JC32 | JZ32 | JNA32.

Definition pair_handlers (p : jump_pair)
  : instruction_func_t * instruction_func_t :=
  match p with
  | JC => (Fn.jc, Fn.jnc)
  | JZ => (Fn.jz, Fn.jnz)
  | JS => (Fn.js, Fn.jns)
  | JO => (Fn.jo, Fn.jno)
  | JC32 => (Fn.jc32, Fn.jnc32)
  | JZ32 => (Fn.jz32, Fn.jnz32)
  | JNA32 => (Fn.jna32, Fn.ja32)
  end.

Definition in_range (lo hi op : Z) : bool := (lo <=? op) && (op <=? hi).

(** The one-byte opcode map, as the handlers' headers and section 4.5 give
    it; a byte that is not listed has no handler. *)
Definition tabulated (op : Z) : option instruction_func_t :=
  if in_range 0x50 0x57 op then Some Fn.push_r32
  else if in_range 0x58 0x5F op then Some Fn.pop_r32
  else if in_range 0xB8 0xBF op then Some Fn.mov_r32_imm32
  else if op =? 0x01 then Some Fn.add_rm32_r32
  else if op =? 0x3B then Some Fn.cmp_r32_rm32
  else if op =? 0x68 then Some Fn.push_imm32
  else if op =? 0x6A then Some Fn.push_imm8
  else if op =? 0x70 then Some Fn.jo
  else if op =? 0x71 then Some Fn.jno
  else if op =? 0x72 then Some Fn.jc
  else if op =? 0x73 then Some Fn.jnc
  else if op =? 0x74 then Some Fn.jz
  else if op =? 0x75 then Some Fn.jnz
  else if op =? 0x78 then Some Fn.js
  else if op =? 0x79 then Some Fn.jns
  else if op =? 0x7C then Some Fn.jl
  else if op =? 0x7E then Some Fn.jle
  else if op =? 0x83 then Some Fn.code_83
  else if op =? 0x89 then Some Fn.mov_rm32_r32
  else if op =? 0x8B then Some Fn.mov_r32_rm32
  else if op =? 0xC3 then Some Fn.ret
  else if op =? 0xC7 then Some Fn.mov_rm32_imm32
  else if op =? 0xC9 then Some Fn.leave
  else if op =? 0xE8 then Some Fn.call_rel32
  else if op =? 0xE9 then Some Fn.near_jump
  else if op =? 0xEB then Some Fn.short_jump
  else if op =? 0xFF then Some Fn.code_ff
  else None.

(** The four bytes below the stack pointer [sp] lie inside [memory], and
    [registers] is the eight-element array of the state. *)
Definition stack_slot_ok (emu : Emulator) (sp : Z) : Prop :=
  4 <= sp <= Z.of_nat (length (memory emu)) /\
  length (registers emu) = 8%nat.

(** ** The handlers over an arbitrary decoder *)

(** The bodies of the seven handlers that call [parse_modrm], with the
    decoder they call left open, to tell what the handlers do for [eip]
    from what the decoder does. *)
Definition mov_rm32_r32_over (decode : Emulator -> Emulator * ModRM)
    (emu : Emulator) : Emulator :=
  let emu := add_eip emu 1 in
  let '(emu, modrm) := decode emu in
  let r32 := get_r32 emu modrm in
  set_rm32 emu modrm r32.

Definition mov_rm32_imm32_over (decode : Emulator -> Emulator * ModRM)
    (emu : Emulator) : Emulator :=
  let emu := add_eip emu 1 in
  let '(emu, modrm) := decode emu in
  let value := get_code32 emu 0 in
  let emu := add_eip emu 4 in
  set_rm32 emu modrm value.

Definition mov_r32_rm32_over (decode : Emulator -> Emulator * ModRM)
    (emu : Emulator) : Emulator :=
  let emu := add_eip emu 1 in
  let '(emu, modrm) := decode emu in
  let rm32 := get_rm32 emu modrm in
  set_r32 emu modrm rm32.

Definition add_rm32_r32_over (decode : Emulator -> Emulator * ModRM)
    (emu : Emulator) : Emulator :=
  let emu := add_eip emu 1 in
  let '(emu, modrm) := decode emu in
  let r32 := get_r32 emu modrm in
  let rm32 := get_rm32 emu modrm in
  set_rm32 emu modrm (wrap32 (r32 + rm32)).

Definition cmp_r32_rm32_over (decode : Emulator -> Emulator * ModRM)
    (emu : Emulator) : Emulator :=
  let emu := add_eip emu 1 in
  let '(emu, modrm) := decode emu in
  let r32 := get_r32 emu modrm in
  let rm32 := get_rm32 emu modrm in
  let result := wrap64 (r32 - rm32) in
  update_eflags_sub emu r32 rm32 result.

Definition code_83_over (decode : Emulator -> Emulator * ModRM)
    (emu : Emulator) : outcome :=
  let emu := add_eip emu 1 in
  let '(emu, modrm) := decode emu in
  if opcode modrm =? 0 then Returns (add_rm32_imm8 emu modrm)
  else if opcode modrm =? 5 then Returns (sub_rm32_imm8 emu modrm)
  else if opcode modrm =? 7 then Returns (cmp_rm32_imm8 emu modrm)
  else
    Exits 1
      ("Not implemented: Op: 83 with ModR/M Op: " +:+ pretty (opcode modrm)
         +:+ newline).

Definition code_ff_over (decode : Emulator -> Emulator * ModRM)
    (emu : Emulator) : outcome :=
  let emu := add_eip emu 1 in
  let '(emu, modrm) := decode emu in
  if opcode modrm =? 0 then Returns (inc_rm32 emu modrm)
  else
    Exits 1
      ("Not implemented: Op: FF with ModR/M Op: " +:+ pretty (opcode modrm)
         +:+ newline).

(** Modelled from the spec: [parse_modrm] of [modrm.c] as section 4.2 words
    its contract: the byte at [eip] split into [mod], [reg/opcode] and
    [rm], the displacement chosen by [mod] read after it, the number of
    bytes consumed returned in the result, and [eip] left for the caller to
    advance. *)
Definition parse_modrm_as_worded (emu : Emulator) : Emulator * ModRM :=
  let code := get_code8 emu 0 in
  let mod_ := Z.shiftr (Z.land code 0xC0) 6 in
  let opcode := Z.shiftr (Z.land code 0x38) 3 in
  let rm := Z.land code 0x07 in
  if mod_ =? 1 then
    (emu, mkModRM mod_ opcode rm (get_sign_code8 emu 1) 2)
  else if mod_ =? 2 then
    (emu, mkModRM mod_ opcode rm (get_sign_code32 emu 1) 5)
  else
    (emu, mkModRM mod_ opcode rm 0 1).

(** ** Sample states *)

(** A state at [eip = 0] with the given flags, registers and memory. *)
Definition sample (flags : Z) (regs bytes : list Z) : Emulator :=
  mkEmulator flags regs [0; 0; 0; 0; 0; 0] [0; 0; 0; 0; 0] bytes 0
    (mkGdtr 0 0) 0.

(** Registers with [EAX = 10], [ESP = 16], [EBP = 8]. *)
Definition sample_registers : list Z := [10; 0; 0; 0; 16; 8; 0; 0].

(** Sixteen bytes of memory starting with the given code. *)
Definition sample_memory (code : list Z) : list Z :=
  take 16 (code ++ replicate 16 0).

(** [mov [ebp+4], eax]: opcode 89, ModR/M 45 (mod 01), one displacement
    byte. *)
Definition mov_ebp4_eax : Emulator :=
  sample 0 sample_registers (sample_memory [0x89; 0x45; 0x04]).

(** [mov dword [ebp+4], 42]: opcode C7, ModR/M 45, displacement, imm32. *)
Definition mov_ebp4_imm : Emulator :=
  sample 0 sample_registers (sample_memory [0xC7; 0x45; 0x04; 0x2A; 0; 0; 0]).

(** [add eax, 3], [or eax, 3] (not implemented), [sub eax, 3] and
    [cmp eax, 3]: opcode 83 with sub-opcodes 0, 1, 5 and 7. *)
Definition add_eax_3 : Emulator :=
  sample 0 sample_registers (sample_memory [0x83; 0xC0; 0x03]).
Definition or_eax_3 : Emulator :=
  sample 0 sample_registers (sample_memory [0x83; 0xC8; 0x03]).
Definition sub_eax_3 : Emulator :=
  sample 0 sample_registers (sample_memory [0x83; 0xE8; 0x03]).
Definition cmp_eax_3 : Emulator :=
  sample 0 sample_registers (sample_memory [0x83; 0xF8; 0x03]).

(** [jz near +0x100] with the zero flag clear: opcode 0F 84. *)
Definition jz32_untaken : Emulator :=
  sample 0 sample_registers (sample_memory [0x0F; 0x84; 0x00; 0x01; 0; 0]).

(** [call +3] with the stack pointer at 16: opcode E8. *)
Definition call_3 : Emulator :=
  sample 0 sample_registers (sample_memory [0xE8; 0x03; 0; 0; 0]).

(** ** Further descriptions of the handlers *)

(** The fields no instruction of this core is meant to touch, and the sizes
    of the two arrays. *)
Definition untouched (emu : Emulator) :=
  (segment_registers emu, control_registers emu, gdtr emu, exception emu,
   length (registers emu), length (memory emu)).

(** The comparison of the operands of a [cmp] that each conditional jump
    realises; the jumps on sign and overflow alone realise none. *)
Definition branch_relation (f : instruction_func_t) : option (Z -> Z -> bool) :=
  match f with
  | Fn.jz | Fn.jz32 => Some (fun a b => a =? b)
  | Fn.jnz | Fn.jnz32 => Some (fun a b => negb (a =? b))
  | Fn.jc | Fn.jc32 => Some (fun a b => a <? b)
  | Fn.jnc | Fn.jnc32 => Some (fun a b => b <=? a)
  | Fn.jna32 => Some (fun a b => a <=? b)
  | Fn.ja32 => Some (fun a b => b <? a)
  | Fn.jl => Some (fun a b => signed32 a <? signed32 b)
  | Fn.jle => Some (fun a b => signed32 a <=? signed32 b)
  | Fn.jg32 => Some (fun a b => signed32 b <? signed32 a)
  | _ => None
  end.

(** The [rm] field of the ModR/M byte of the instruction at [eip]. *)
Definition encoded_rm (emu : Emulator) : Z :=
  Z.land (get_code8 emu 1) 0x07.

(** The handlers that are jumps and nothing else. *)
Definition is_jump (f : instruction_func_t) : bool :=
  match f with
  | Fn.short_jump | Fn.near_jump
  | Fn.jc | Fn.jnc | Fn.jz | Fn.jnz | Fn.js | Fn.jns | Fn.jo | Fn.jno
  | Fn.jl | Fn.jle
  | Fn.jc32 | Fn.jnc32 | Fn.jz32 | Fn.jnz32 | Fn.jna32 | Fn.ja32 | Fn.jg32 =>
      true
  | _ => false
  end.

(** The handlers that call [update_eflags_sub], directly or through a
    sub-handler. *)
Definition sets_flags (f : instruction_func_t) : bool :=
  match f with
  | Fn.code_83 | Fn.cmp_r32_rm32 => true
  | _ => false
  end.

(** The handlers with no store to memory in their body: jumps, loads into a
    register, the register compare, and the stack reads. *)
Definition never_stores (f : instruction_func_t) : bool :=
  match f with
  | Fn.mov_r32_imm32 | Fn.mov_r32_rm32 | Fn.cmp_r32_rm32
  | Fn.pop_r32 | Fn.ret | Fn.leave => true
  | _ => is_jump f
  end.

(** The register a [push r32], [pop r32] or [mov r32, imm32] names in the
    low bits of its opcode byte, as the handler computes it. *)
Definition opcode_register (f : instruction_func_t) (op : Z) : option Z :=
  match f with
  | Fn.push_r32 => Some (wrap8 (op - 0x50))
  | Fn.pop_r32 => Some (wrap8 (op - 0x58))
  | Fn.mov_r32_imm32 => Some (wrap8 (op - 0xB8))
  | _ => None
  end.

(** By how much a handler moves [ESP]: the pushes and the call by -4, the
    return by 4, and a pop by 4 unless it pops into [ESP] itself. *)
Definition stack_effect (f : instruction_func_t) (emu : Emulator) : option Z :=
  match f with
  | Fn.push_r32 | Fn.push_imm32 | Fn.push_imm8 | Fn.call_rel32 => Some (-4)
  | Fn.ret => Some 4
  | Fn.pop_r32 =>
      if wrap8 (get_code8 emu 0 - 0x58) =? ESP then None else Some 4
  | _ => None
  end.

(** The value a push handler pushes. *)
Definition pushed_value (f : instruction_func_t) (emu : Emulator) : option Z :=
  match f with
  | Fn.push_r32 => Some (get_register32 emu (wrap8 (get_code8 emu 0 - 0x50)))
  | Fn.push_imm32 => Some (get_code32 emu 1)
  | Fn.push_imm8 => Some (get_code8 emu 1)
  | _ => None
  end.

(** The value each handler that writes its ModR/M operand leaves there, in
    terms of the state before the instruction when the operand is the
    register [rm] (mod 3): the instruction is then two bytes long and an
    immediate starts at offset 2. *)
Definition register_direct_result (f : instruction_func_t) (emu : Emulator)
  : option Z :=
  let v := get_register32 emu (encoded_rm emu) in
  let r := get_register32 emu (encoded_subop emu) in
  match f with
  | Fn.mov_rm32_imm32 => Some (get_code32 emu 2)
  | Fn.mov_rm32_r32 => Some r
  | Fn.add_rm32_r32 => Some (wrap32 (r + v))
  | Fn.code_83 =>
      if encoded_subop emu =? 0 then Some (wrap32 (v + get_sign_code8 emu 2))
      else if encoded_subop emu =? 5
           then Some (wrap32 (v - get_sign_code8 emu 2))
      else if encoded_subop emu =? 7 then Some v
      else None
  | Fn.code_ff =>
      if encoded_subop emu =? 0 then Some (wrap32 (v + 1)) else None
  | _ => None
  end.

(** ** Further sample states *)

(** [cmp eax, ecx] followed by [jl +5], with [EAX = 10] and [ECX = 0]. *)
Definition cmp_eax_ecx_jl : Emulator :=
  sample 0 sample_registers (sample_memory [0x3B; 0xC1; 0x7C; 0x05]).

(** [jmp] to itself: opcode EB, offset -2. *)
Definition jmp_self : Emulator :=
  sample 0 sample_registers (sample_memory [0xEB; 0xFE]).

(** [jz near +0x100] with the zero flag set. *)
Definition jz32_taken : Emulator :=
  sample 64 sample_registers (sample_memory [0x0F; 0x84; 0x00; 0x01; 0; 0]).

(** [push 42] followed by [pop eax]. *)
Definition push_42_pop_eax : Emulator :=
  sample 0 sample_registers (sample_memory [0x68; 0x2A; 0; 0; 0; 0x58]).

(** [pop eax] with the stack pointer at 12, four bytes below the end of
    memory. *)
Definition pop_eax : Emulator :=
  sample 0 [10; 0; 0; 0; 12; 8; 0; 0] (sample_memory [0x58]).

(** [push 0xFF] in the one-byte immediate form. *)
Definition push_ff : Emulator :=
  sample 0 sample_registers (sample_memory [0x6A; 0xFF]).

(** [mov ecx, eax] in the load form, and [mov ecx, 42]. *)
Definition mov_ecx_eax : Emulator :=
  sample 0 sample_registers (sample_memory [0x8B; 0xC8]).
Definition mov_ecx_42 : Emulator :=
  sample 0 sample_registers (sample_memory [0xB9; 0x2A; 0; 0; 0]).

(** [mov [ecx], eax] with [ECX = 8]. *)
Definition store_eax_at_ecx : Emulator :=
  sample 0 [10; 8; 0; 0; 16; 8; 0; 0] (sample_memory [0x89; 0x01]).

(** [sub eax, 3] followed by [jnz -5]. *)
Definition sub_eax_3_jnz : Emulator :=
  sample 0 sample_registers (sample_memory [0x83; 0xE8; 0x03; 0x75; 0xFB]).

(** [push ebp], [mov ebp, esp], [leave]. *)
Definition prologue : Emulator :=
  sample 0 sample_registers (sample_memory [0x55; 0x89; 0xE5; 0xC9]).

(** * Properties *)

(** ** Machine integers *)

Lemma wrap8_idem v : wrap8 (wrap8 v) = wrap8 v.
Proof. unfold wrap8. apply Z.mod_mod. lia. Qed.

Lemma wrap32_idem v : wrap32 (wrap32 v) = wrap32 v.
Proof. unfold wrap32. apply Z.mod_mod. lia. Qed.

Lemma wrap32_small v : 0 <= v < 2 ^ 32 -> wrap32 v = v.
Proof. apply Z.mod_small. Qed.

Lemma wrap32_range v : 0 <= wrap32 v < 2 ^ 32.
Proof. unfold wrap32. apply Z.mod_pos_bound. lia. Qed.

Lemma wrap32_add_l (a b : Z) : wrap32 (wrap32 a + b) = wrap32 (a + b).
Proof. unfold wrap32. apply Zplus_mod_idemp_l. Qed.

Lemma wrap32_wrap64 (z : Z) : wrap32 (wrap64 z) = wrap32 z.
Proof.
  unfold wrap32, wrap64.
  apply Z.mod_mod_divide. exists (2 ^ 32). reflexivity.
Qed.

(** The top bit of a [w+1]-bit number is set from [2^w] on. *)
Lemma testbit_top (w x : Z) :
  0 <= w -> 0 <= x < 2 ^ (w + 1) -> Z.testbit x w = (2 ^ w <=? x).
Proof.
  intros Hw Hx.
  rewrite Z.testbit_odd, Z.shiftr_div_pow2 by lia.
  assert (Hp : 0 < 2 ^ w) by (apply Z.pow_pos_nonneg; lia).
  rewrite Z.pow_add_r, Z.pow_1_r in Hx by lia.
  destruct (Z.leb_spec (2 ^ w) x) as [Hle|Hlt].
  - replace (x / 2 ^ w) with 1; [reflexivity|].
    apply Z.div_unique with (r := x - 2 ^ w); lia.
  - rewrite Z.div_small by lia. reflexivity.
Qed.

Lemma signed32_small a :
  0 <= a < 2 ^ 32 -> signed32 a = if 2 ^ 31 <=? a then a - 2 ^ 32 else a.
Proof.
  intros Ha. unfold signed32. rewrite wrap32_small by lia.
  rewrite (testbit_top 31) by lia. reflexivity.
Qed.

(** A 64-bit difference of two 32-bit operands has bit 32 set exactly when
    the subtraction borrows. *)
Lemma wrap64_sub_borrow (a b : Z) :
  0 <= a < 2 ^ 32 -> 0 <= b < 2 ^ 32 ->
  Z.testbit (wrap64 (a - b)) 32 = (a <? b).
Proof.
  intros Ha Hb. unfold wrap64.
  rewrite Z.testbit_odd, Z.shiftr_div_pow2 by lia.
  destruct (Z.ltb_spec a b) as [Hlt|Hge].
  - replace ((a - b) mod 2 ^ 64) with (2 ^ 64 + (a - b)).
    + replace ((2 ^ 64 + (a - b)) / 2 ^ 32) with (2 ^ 32 - 1); [reflexivity|].
      apply Z.div_unique with (r := 2 ^ 32 + (a - b)); lia.
    + apply Z.mod_unique with (q := -1); lia.
  - rewrite Z.mod_small by lia. rewrite Z.div_small by lia. reflexivity.
Qed.

Lemma wrap32_sub_zero (a b : Z) :
  0 <= a < 2 ^ 32 -> 0 <= b < 2 ^ 32 ->
  (wrap32 (a - b) =? 0) = (a =? b).
Proof.
  intros Ha Hb. unfold wrap32.
  destruct (Z.eqb_spec a b) as [->|Hne].
  - rewrite Z.sub_diag. reflexivity.
  - apply Z.eqb_neq. intros H.
    apply Z.mod_divide in H; [|lia].
    destruct H as [q Hq]. lia.
Qed.

(** ** Flag evaluator *)

Lemma testbit_set_flag (emu : Emulator) (k n : Z) (on : bool) :
  0 <= k ->
  Z.testbit (eflags (set_flag emu k on)) n =
    if n =? k then on else Z.testbit (eflags emu) n.
Proof.
  intros Hk. unfold set_flag; simpl.
  destruct (Z.ltb_spec n 0) as [Hn|Hn].
  - rewrite !Z.testbit_neg_r by lia.
    destruct (Z.eqb_spec n k); [lia|reflexivity].
  - rewrite Z.shiftl_1_l.
    destruct on.
    + rewrite Z.lor_spec, Z.pow2_bits_eqb by lia.
      rewrite (Z.eqb_sym k n).
      destruct (n =? k); [apply orb_true_r|apply orb_false_r].
    + rewrite Z.land_spec, Z.lnot_spec, Z.pow2_bits_eqb by lia.
      rewrite (Z.eqb_sym k n).
      destruct (n =? k); [apply andb_false_r|apply andb_true_r].
Qed.

Lemma testbit_set_flag_eq (emu : Emulator) (k : Z) (on : bool) :
  0 <= k -> Z.testbit (eflags (set_flag emu k on)) k = on.
Proof. intros Hk. rewrite testbit_set_flag, Z.eqb_refl by lia. reflexivity. Qed.

Lemma testbit_set_flag_ne (emu : Emulator) (k n : Z) (on : bool) :
  0 <= k -> n <> k ->
  Z.testbit (eflags (set_flag emu k on)) n = Z.testbit (eflags emu) n.
Proof.
  intros Hk Hn. rewrite testbit_set_flag by lia.
  destruct (Z.eqb_spec n k); [lia|reflexivity].
Qed.

Ltac flag_bits :=
  unfold CARRY_BIT, ZERO_BIT, SIGN_BIT, OVERFLOW_BIT;
  repeat (rewrite testbit_set_flag_ne by lia);
  try (rewrite testbit_set_flag_eq by lia).

(** C1: for 32-bit unsigned [a] and [b], after
    [update_eflags_sub emu a b (a - b)] with the difference taken on 64
    bits, the zero flag is set iff [a = b], the carry flag iff [a < b], the
    sign flag iff bit 31 of [(a - b) mod 2^32] is set, the overflow flag iff
    [a] and [b] differ in sign and the truncated result differs in sign from
    [a]; every bit of [eflags] other than 0, 6, 7 and 11 keeps its value. *)
Theorem update_eflags_sub_flags (emu : Emulator) (a b : Z) :
  0 <= a < 2 ^ 32 -> 0 <= b < 2 ^ 32 ->
  let emu' := update_eflags_sub emu a b (wrap64 (a - b)) in
  (is_zero emu' = true <-> a = b) /\
  (is_carry emu' = true <-> a < b) /\
  (is_sign emu' = true <-> Z.testbit (wrap32 (a - b)) 31 = true) /\
  (is_overflow emu' = true <->
     Z.testbit a 31 <> Z.testbit b 31 /\
     Z.testbit (wrap32 (a - b)) 31 <> Z.testbit a 31) /\
  (forall n, n <> 0 -> n <> 6 -> n <> 7 -> n <> 11 ->
     Z.testbit (eflags emu') n = Z.testbit (eflags emu) n).
Proof.
  intros Ha Hb emu'. subst emu'.
  unfold is_zero, is_carry, is_sign, is_overflow, update_eflags_sub.
  rewrite wrap32_wrap64, wrap64_sub_borrow, wrap32_sub_zero by assumption.
  split; [flag_bits; apply Z.eqb_eq|].
  split; [flag_bits; apply Z.ltb_lt|].
  split; [flag_bits; reflexivity|].
  split.
  - flag_bits.
    destruct (Z.testbit a 31), (Z.testbit b 31),
      (Z.testbit (wrap32 (a - b)) 31); cbn; intuition congruence.
  - intros n H0 H6 H7 H11. flag_bits. reflexivity.
Qed.

Lemma update_eflags_sub_flags_witness :
  let emu' := update_eflags_sub sub_eax_3 5 10 (wrap64 (5 - 10)) in
  (is_zero emu' = true <-> 5 = 10) /\
  (is_carry emu' = true <-> 5 < 10) /\
  (is_sign emu' = true <-> Z.testbit (wrap32 (5 - 10)) 31 = true) /\
  (is_overflow emu' = true <->
     Z.testbit 5 31 <> Z.testbit 10 31 /\
     Z.testbit (wrap32 (5 - 10)) 31 <> Z.testbit 5 31) /\
  (forall n, n <> 0 -> n <> 6 -> n <> 7 -> n <> 11 ->
     Z.testbit (eflags emu') n = Z.testbit (eflags sub_eax_3) n).
Proof. apply (update_eflags_sub_flags sub_eax_3 5 10); lia. Defined.

(** The example of the specification: 5 - 10 clears zero and overflow and
    sets carry and sign. *)
Example update_eflags_sub_5_10 :
  let emu' := update_eflags_sub sub_eax_3 5 10 (wrap64 (5 - 10)) in
  (is_zero emu', is_carry emu', is_sign emu', is_overflow emu') =
  (false, true, true, false).
Proof. vm_compute. reflexivity. Qed.

(** The sign-bit rule is the usual one: the flag is set exactly when the
    difference of the operands read as signed numbers leaves the 32-bit
    signed range. *)
Lemma sub_overflow_signed_range (a b : Z) :
  0 <= a < 2 ^ 32 -> 0 <= b < 2 ^ 32 ->
  (Z.testbit a 31 <> Z.testbit b 31 /\
   Z.testbit (wrap32 (a - b)) 31 <> Z.testbit a 31) <->
  ~ (- 2 ^ 31 <= signed32 a - signed32 b < 2 ^ 31).
Proof.
  intros Ha Hb.
  pose proof (wrap32_range (a - b)) as Hr.
  assert (Hw : wrap32 (a - b) = if a <? b then a - b + 2 ^ 32 else a - b).
  { unfold wrap32. destruct (Z.ltb_spec a b).
    - symmetry. apply Z.mod_unique with (q := -1); lia.
    - apply Z.mod_small; lia. }
  rewrite !signed32_small by lia.
  rewrite !(testbit_top 31) by lia.
  rewrite Hw. clear Hw Hr.
  destruct (Z.ltb_spec a b);
    repeat match goal with
           | |- context [?x <=? ?y] => destruct (Z.leb_spec x y)
           end;
    split; intros Hgoal; try lia; try (intuition congruence);
    try (destruct Hgoal; lia).
Qed.

Lemma eflags_update_eflags_sub_ext e1 e2 v1 v2 result :
  eflags e1 = eflags e2 ->
  eflags (update_eflags_sub e1 v1 v2 result) =
  eflags (update_eflags_sub e2 v1 v2 result).
Proof.
  intros H. unfold update_eflags_sub, set_flag. simpl. rewrite H. reflexivity.
Qed.

(** ** What the accessors leave alone *)

Lemma set_memory32_memory_only (emu : Emulator) (address value : Z) :
  set_memory32 emu address value =
  with_memory emu (memory (set_memory32 emu address value)).
Proof.
  unfold set_memory32.
  generalize (zip [0; 1; 2; 3] (Z_to_little_endian 4 8 value)).
  intros l. revert emu.
  induction l as [|ib l IH]; intros emu; simpl.
  - destruct emu; reflexivity.
  - rewrite IH at 1. reflexivity.
Qed.

Lemma eip_set_memory32 emu address value :
  eip (set_memory32 emu address value) = eip emu.
Proof. rewrite set_memory32_memory_only. reflexivity. Qed.

Lemma eflags_set_memory32 emu address value :
  eflags (set_memory32 emu address value) = eflags emu.
Proof. rewrite set_memory32_memory_only. reflexivity. Qed.

Lemma registers_set_memory32 emu address value :
  registers (set_memory32 emu address value) = registers emu.
Proof. rewrite set_memory32_memory_only. reflexivity. Qed.

Lemma eip_set_rm32 emu modrm value : eip (set_rm32 emu modrm value) = eip emu.
Proof.
  unfold set_rm32. destruct (mod_ modrm =? 3);
    [reflexivity | apply eip_set_memory32].
Qed.

Lemma eflags_set_rm32 emu modrm value :
  eflags (set_rm32 emu modrm value) = eflags emu.
Proof.
  unfold set_rm32. destruct (mod_ modrm =? 3);
    [reflexivity | apply eflags_set_memory32].
Qed.

Lemma eip_push32 emu value : eip (push32 emu value) = eip emu.
Proof. unfold push32. rewrite eip_set_memory32. reflexivity. Qed.

Lemma eip_update_eflags_sub emu v1 v2 result :
  eip (update_eflags_sub emu v1 v2 result) = eip emu.
Proof. reflexivity. Qed.

Lemma get_rm32_ext e1 e2 modrm :
  registers e1 = registers e2 -> memory e1 = memory e2 ->
  get_rm32 e1 modrm = get_rm32 e2 modrm.
Proof.
  intros Hr Hm.
  unfold get_rm32, calc_memory_address, get_register32, get_memory32,
    get_memory8.
  rewrite Hr, Hm. reflexivity.
Qed.

Lemma eip_add_eip emu n : eip (add_eip emu n) = wrap32 (eip emu + n).
Proof. reflexivity. Qed.

Lemma get_code8_add_eip emu n i :
  get_code8 (add_eip emu n) i = get_code8 emu (n + i).
Proof.
  unfold get_code8, get_memory8. simpl. rewrite wrap32_add_l.
  rewrite Z.add_assoc. reflexivity.
Qed.

(** ** The decoder *)

Lemma parse_modrm_eip emu :
  eip (parse_modrm emu).1 =
  wrap32 (eip emu + (1 + disp_bytes (mod_ (parse_modrm emu).2))).
Proof.
  unfold parse_modrm, disp_bytes.
  destruct (Z.shiftr (Z.land (get_code8 emu 0) 0xC0) 6 =? 1) eqn:E1; simpl.
  - rewrite E1. rewrite wrap32_add_l. f_equal; lia.
  - destruct (Z.shiftr (Z.land (get_code8 emu 0) 0xC0) 6 =? 2) eqn:E2; simpl.
    + rewrite E1, E2. rewrite wrap32_add_l. f_equal; lia.
    + rewrite E1, E2. f_equal.
Qed.

Lemma parse_modrm_fields emu :
  let code := get_code8 emu 0 in
  let modrm := (parse_modrm emu).2 in
  mod_ modrm = Z.shiftr (Z.land code 0xC0) 6 /\
  opcode modrm = Z.shiftr (Z.land code 0x38) 3 /\
  rm modrm = Z.land code 0x07 /\
  consumed modrm = 1 + disp_bytes (mod_ modrm).
Proof.
  unfold parse_modrm, disp_bytes.
  destruct (Z.shiftr (Z.land (get_code8 emu 0) 0xC0) 6 =? 1) eqn:E1; simpl.
  - rewrite E1. auto.
  - destruct (Z.shiftr (Z.land (get_code8 emu 0) 0xC0) 6 =? 2) eqn:E2; simpl;
      rewrite E1, E2; auto.
Qed.

(** The decoder changes no field of the state but [eip]. *)
Lemma parse_modrm_state emu :
  (parse_modrm emu).1 = with_eip emu (eip (parse_modrm emu).1).
Proof.
  unfold parse_modrm.
  destruct (_ =? 1); [destruct emu; reflexivity|].
  destruct (_ =? 2); destruct emu; reflexivity.
Qed.

Lemma eflags_parse_modrm emu : eflags (parse_modrm emu).1 = eflags emu.
Proof. rewrite parse_modrm_state. reflexivity. Qed.

Lemma registers_parse_modrm emu : registers (parse_modrm emu).1 = registers emu.
Proof. rewrite parse_modrm_state. reflexivity. Qed.

Lemma memory_parse_modrm emu : memory (parse_modrm emu).1 = memory emu.
Proof. rewrite parse_modrm_state. reflexivity. Qed.

(** Decoding right after the opcode byte of the instruction at [eip]. *)
Lemma parse_modrm_after_opcode emu :
  let d := parse_modrm (add_eip emu 1) in
  eip d.1 = wrap32 (eip emu + (1 + modrm_bytes emu)) /\
  mod_ d.2 = encoded_mod emu /\
  opcode d.2 = encoded_subop emu.
Proof.
  intros d. subst d.
  pose proof (parse_modrm_fields (add_eip emu 1)) as (Hm & Ho & _).
  rewrite get_code8_add_eip in Hm, Ho. change (1 + 0) with 1 in Hm, Ho.
  rewrite parse_modrm_eip, Hm. simpl eip. rewrite wrap32_add_l.
  unfold modrm_bytes, encoded_mod, encoded_subop.
  repeat split; [f_equal; lia | exact Ho].
Qed.

Ltac after_opcode emu :=
  let He := fresh "He" in
  let Hm := fresh "Hm" in
  let Ho := fresh "Ho" in
  let e := fresh "decoded_emu" in
  let m := fresh "decoded" in
  pose proof (parse_modrm_after_opcode emu) as (He & Hm & Ho);
  destruct (parse_modrm (add_eip emu 1)) as [e m];
  simpl in He, Hm, Ho.

Lemma encoded_subop_range emu : 0 <= encoded_subop emu < 8.
Proof.
  unfold encoded_subop.
  rewrite Z.shiftr_land.
  change (Z.shiftr 0x38 3) with (Z.ones 3).
  rewrite Z.land_ones by lia.
  apply Z.mod_pos_bound. lia.
Qed.

(** *** Why the decoder has to move [eip] *)

Lemma mov_rm32_r32_over_parse_modrm :
  mov_rm32_r32 = mov_rm32_r32_over parse_modrm /\
  mov_rm32_imm32 = mov_rm32_imm32_over parse_modrm.
Proof. split; reflexivity. Qed.

(** Whatever the decoder, the handlers add one byte before it and, for the
    immediate form, four after it: nothing for the ModR/M bytes. *)
Lemma handlers_add_no_modrm_length decode emu :
  eip (mov_rm32_r32_over decode emu) = eip (decode (add_eip emu 1)).1 /\
  eip (mov_rm32_imm32_over decode emu) =
    wrap32 (eip (decode (add_eip emu 1)).1 + 4).
Proof.
  unfold mov_rm32_r32_over, mov_rm32_imm32_over.
  destruct (decode (add_eip emu 1)) as [e m]. simpl.
  rewrite !eip_set_rm32. split; reflexivity.
Qed.

(** So over a decoder that left [eip] where it found it, both handlers
    would advance by 1 and by 5 for every encoding, short of the tabulated
    1 + ModR/M-bytes and 1 + ModR/M-bytes + 4, and the immediate would be
    read starting at the ModR/M byte. *)
Lemma eip_over_decoder_keeping_eip decode emu :
  (forall e, eip (decode e).1 = eip e) ->
  eip (mov_rm32_r32_over decode emu) = wrap32 (eip emu + 1) /\
  eip (mov_rm32_imm32_over decode emu) = wrap32 (eip emu + 5).
Proof.
  intros Hkeep.
  destruct (handlers_add_no_modrm_length decode emu) as [-> ->].
  rewrite Hkeep, eip_add_eip, wrap32_add_l.
  split; [reflexivity | f_equal; lia].
Qed.

(** Run over the decoder as worded, [mov [ebp+4], eax] stops at address 1
    where its three bytes end at 3, and [mov dword [ebp+4], 42] stores the
    four bytes that start at its ModR/M byte instead of 42. *)
Example handlers_over_worded_decoder :
  eip (mov_rm32_r32_over parse_modrm_as_worded mov_ebp4_eax) = 1 /\
  encoded_length Fn.mov_rm32_r32 mov_ebp4_eax = Some 3 /\
  eip (mov_rm32_r32 mov_ebp4_eax) = 3 /\
  get_memory32 (mov_rm32_imm32_over parse_modrm_as_worded mov_ebp4_imm) 12
    = 0x002A0445 /\
  get_memory32 (mov_rm32_imm32 mov_ebp4_imm) 12 = 42.
Proof. vm_compute. repeat split; reflexivity. Qed.

(** The decoder this file gives the handlers: it splits the byte at [eip]
    into [mod], [reg/opcode] and [rm], consumes that byte and the
    displacement bytes chosen by [mod], and moves [eip] past them, changing
    nothing else. *)
Lemma parse_modrm_advances_eip (emu : Emulator) :
  let code := get_code8 emu 0 in
  let decoded := parse_modrm emu in
  let modrm := decoded.2 in
  mod_ modrm = Z.shiftr (Z.land code 0xC0) 6 /\
  opcode modrm = Z.shiftr (Z.land code 0x38) 3 /\
  rm modrm = Z.land code 0x07 /\
  consumed modrm = 1 + disp_bytes (mod_ modrm) /\
  decoded.1 = with_eip emu (wrap32 (eip emu + consumed modrm)) /\
  eip (mov_rm32_r32 emu) = eip (parse_modrm (add_eip emu 1)).1 /\
  eip (mov_rm32_imm32 emu) = wrap32 (eip (parse_modrm (add_eip emu 1)).1 + 4).
Proof.
  intros code decoded modrm.
  destruct (parse_modrm_fields emu) as (Hm & Ho & Hr & Hc).
  repeat (split; [assumption|]).
  split; [|split].
  - subst decoded modrm. rewrite parse_modrm_state at 1.
    rewrite parse_modrm_eip, Hc. reflexivity.
  - unfold mov_rm32_r32. destruct (parse_modrm (add_eip emu 1)).
    apply eip_set_rm32.
  - unfold mov_rm32_imm32. destruct (parse_modrm (add_eip emu 1)).
    rewrite eip_set_rm32. reflexivity.
Qed.

(** C4: whatever decoder they call, the seven handlers that call
    [parse_modrm] advance [eip] by 1 for their opcode byte before the call
    and after it only by their immediate bytes, 4 for [mov rm32, imm32],
    1 for the 0x83 group and none for the others: they add no count for
    the ModR/M bytes and use no value the decoder returns, and end where
    the decoder left [eip] plus those immediate bytes. *)
Theorem callers_add_no_modrm_length
    (decode : Emulator -> Emulator * ModRM) (emu : Emulator) :
  let after := eip (decode (add_eip emu 1)).1 in
  eip (mov_rm32_imm32_over decode emu) = wrap32 (after + 4) /\
  eip (mov_rm32_r32_over decode emu) = after /\
  eip (mov_r32_rm32_over decode emu) = after /\
  eip (add_rm32_r32_over decode emu) = after /\
  eip (cmp_r32_rm32_over decode emu) = after /\
  (forall emu',
     code_83_over decode emu = Returns emu' -> eip emu' = wrap32 (after + 1)) /\
  (forall emu', code_ff_over decode emu = Returns emu' -> eip emu' = after) /\
  (mov_rm32_imm32 = mov_rm32_imm32_over parse_modrm /\
   mov_rm32_r32 = mov_rm32_r32_over parse_modrm /\
   mov_r32_rm32 = mov_r32_rm32_over parse_modrm /\
   add_rm32_r32 = add_rm32_r32_over parse_modrm /\
   cmp_r32_rm32 = cmp_r32_rm32_over parse_modrm /\
   code_83 = code_83_over parse_modrm /\
   code_ff = code_ff_over parse_modrm).
Proof.
  intros after. subst after.
  unfold mov_rm32_imm32_over, mov_rm32_r32_over, mov_r32_rm32_over,
    add_rm32_r32_over, cmp_r32_rm32_over, code_83_over, code_ff_over.
  destruct (decode (add_eip emu 1)) as [e m]. cbn [fst].
  split; [rewrite eip_set_rm32; reflexivity|].
  split; [apply eip_set_rm32|].
  split; [reflexivity|].
  split; [apply eip_set_rm32|].
  split; [apply eip_update_eflags_sub|].
  split; [|split].
  - intros emu' Hret.
    destruct (opcode m =? 0);
      [|destruct (opcode m =? 5); [|destruct (opcode m =? 7)]];
      try discriminate Hret; injection Hret as <-.
    + unfold add_rm32_imm8. rewrite eip_set_rm32. reflexivity.
    + unfold sub_rm32_imm8.
      rewrite eip_update_eflags_sub, eip_set_rm32. reflexivity.
    + unfold cmp_rm32_imm8. rewrite eip_update_eflags_sub. reflexivity.
  - intros emu' Hret.
    destruct (opcode m =? 0); try discriminate Hret; injection Hret as <-.
    unfold inc_rm32. apply eip_set_rm32.
  - repeat split; reflexivity.
Qed.

Lemma callers_add_no_modrm_length_witness :
  let d := parse_modrm_as_worded (add_eip sub_eax_3 1) in
  eip (sub_rm32_imm8 d.1 d.2) = wrap32 (eip d.1 + 1).
Proof.
  apply (proj1 (proj2 (proj2 (proj2 (proj2 (proj2
    (callers_add_no_modrm_length parse_modrm_as_worded sub_eax_3))))))).
  reflexivity.
Defined.

(** Over the decoder as section 4.2 words it, which leaves [eip] at the
    ModR/M byte of [mov [ebp+4], eax] and reports two bytes consumed, the
    handler ends at address 1: it has not advanced [eip] by the bytes the
    decoder consumed. *)
Lemma callers_do_not_add_decoder_count :
  let at_modrm := add_eip mov_ebp4_eax 1 in
  let d := parse_modrm_as_worded at_modrm in
  eip d.1 = eip at_modrm /\
  consumed d.2 = 2 /\
  eip (mov_rm32_r32_over parse_modrm_as_worded mov_ebp4_eax) = 1 /\
  eip (mov_rm32_r32_over parse_modrm_as_worded mov_ebp4_eax)
  <> wrap32 (eip at_modrm + consumed d.2).
Proof. vm_compute. repeat split; discriminate. Qed.

(** With the decoder this file gives the handlers, on [mov [ebp+4], eax]
    the decoder starts at address 1 and leaves [eip] at 3; the handler ends
    there too, having added only the opcode byte. *)
Lemma parse_modrm_moves_eip_example :
  let at_modrm := add_eip mov_ebp4_eax 1 in
  eip at_modrm = 1 /\
  eip (parse_modrm at_modrm).1 = 3 /\
  eip (parse_modrm at_modrm).1 <> eip at_modrm /\
  eip (mov_rm32_r32 mov_ebp4_eax) = eip (parse_modrm at_modrm).1.
Proof. vm_compute. repeat split; discriminate. Qed.

(** ** Instruction lengths *)

(** C2: a handler that is not a control transfer, run on a valid encoding
    of its instruction, returns with [eip] advanced (modulo 2^32) by the
    tabulated length: 5 for [mov r32, imm32]; 1 + ModR/M-bytes + 4 for
    [mov rm32, imm32]; 1 + ModR/M-bytes for [mov rm32, r32],
    [mov r32, rm32], [add rm32, r32], [cmp r32, rm32] and [inc rm32];
    1 + ModR/M-bytes + 1 for the 0x83 group; 1 for [push r32], [pop r32]
    and [leave]; 5 for [push imm32]; 2 for [push imm8]. *)
Theorem eip_advances_by_encoded_length
    (f : instruction_func_t) (emu : Emulator) (len : Z) :
  encoded_length f emu = Some len ->
  valid_encoding f emu = true ->
  exists emu', exec f emu = Returns emu' /\ eip emu' = wrap32 (eip emu + len).
Proof.
  intros Hlen Hvalid.
  destruct f; simpl in Hlen; try discriminate; injection Hlen as <-;
    simpl exec.
  - (* mov r32, imm32 *)
    eexists; split; [reflexivity|]. reflexivity.
  - (* mov rm32, imm32 *)
    eexists; split; [reflexivity|]. unfold mov_rm32_imm32.
    after_opcode emu.
    rewrite eip_set_rm32, eip_add_eip, He, wrap32_add_l. f_equal; lia.
  - (* mov rm32, r32 *)
    eexists; split; [reflexivity|]. unfold mov_rm32_r32.
    after_opcode emu. rewrite eip_set_rm32, He. reflexivity.
  - (* mov r32, rm32 *)
    eexists; split; [reflexivity|]. unfold mov_r32_rm32.
    after_opcode emu. unfold set_r32. simpl. exact He.
  - (* add rm32, r32 *)
    eexists; split; [reflexivity|]. unfold add_rm32_r32.
    after_opcode emu. rewrite eip_set_rm32, He. reflexivity.
  - (* cmp r32, rm32 *)
    eexists; split; [reflexivity|]. unfold cmp_r32_rm32.
    after_opcode emu. rewrite eip_update_eflags_sub. exact He.
  - (* group 0x83 *)
    unfold code_83. simpl in Hvalid.
    after_opcode emu. rewrite Ho.
    destruct (encoded_subop emu =? 0);
      [|destruct (encoded_subop emu =? 5);
        [|destruct (encoded_subop emu =? 7); [|discriminate]]];
      (eexists; split; [reflexivity|]).
    + unfold add_rm32_imm8.
      rewrite eip_set_rm32, eip_add_eip, He, wrap32_add_l. f_equal; lia.
    + unfold sub_rm32_imm8.
      rewrite eip_update_eflags_sub, eip_set_rm32, eip_add_eip, He,
        wrap32_add_l. f_equal; lia.
    + unfold cmp_rm32_imm8.
      rewrite eip_update_eflags_sub, eip_add_eip, He, wrap32_add_l.
      f_equal; lia.
  - (* group 0xFF *)
    unfold code_ff. simpl in Hvalid.
    after_opcode emu. rewrite Ho, Hvalid.
    eexists; split; [reflexivity|].
    unfold inc_rm32. rewrite eip_set_rm32. exact He.
  - (* push r32 *)
    eexists; split; [reflexivity|]. unfold push_r32.
    rewrite eip_add_eip, eip_push32. reflexivity.
  - (* push imm32 *)
    eexists; split; [reflexivity|]. unfold push_imm32.
    rewrite eip_add_eip, eip_push32. reflexivity.
  - (* push imm8 *)
    eexists; split; [reflexivity|]. unfold push_imm8.
    rewrite eip_add_eip, eip_push32. reflexivity.
  - (* pop r32 *)
    eexists; split; [reflexivity|]. reflexivity.
  - (* leave *)
    eexists; split; [reflexivity|]. reflexivity.
Qed.

Lemma eip_advances_by_encoded_length_witness :
  exists emu',
    exec Fn.mov_rm32_imm32 mov_ebp4_imm = Returns emu' /\
    eip emu' = wrap32 (eip mov_ebp4_imm + 7).
Proof.
  apply (eip_advances_by_encoded_length Fn.mov_rm32_imm32 mov_ebp4_imm 7);
    vm_compute; reflexivity.
Defined.

(** ** Conditional jumps *)

Ltac unfold_jumps :=
  unfold jc, jnc, jz, jnz, js, jns, jo, jno, jl, jle,
    jc32, jnc32, jz32, jnz32, jna32, ja32, jg32,
    DEFINE_JX_j, DEFINE_JX_jn, DEFINE_NEAR_JX_j, DEFINE_NEAR_JX_jn.

(** Every conditional jump adds its displacement exactly when its condition
    holds. *)
Lemma conditional_jump_exec f emu c :
  tested_condition f emu = Some c ->
  exec f emu =
  Returns (add_eip emu ((if c then displacement f emu else 0) + fixed_length f)).
Proof.
  intros Hc.
  destruct f; simpl in Hc; try discriminate; injection Hc as <-;
    simpl; unfold_jumps; unfold differ; try reflexivity.
  - destruct (is_carry emu); reflexivity.
  - destruct (is_zero emu); reflexivity.
  - destruct (is_sign emu); reflexivity.
  - destruct (is_overflow emu); reflexivity.
  - destruct (is_carry emu); reflexivity.
  - destruct (is_zero emu); reflexivity.
  - destruct (is_carry emu), (is_zero emu); reflexivity.
Qed.

(** C3: when the condition a conditional jump tests is false, the handler
    returns with [eip] advanced (modulo 2^32) by the fixed length, 2 for
    the short forms and 6 for the near forms; the outcome is the same
    whatever bytes, the displacement among them, memory holds. *)
Theorem jump_not_taken_fixed_length f emu :
  tested_condition f emu = Some false ->
  exists emu',
    exec f emu = Returns emu' /\
    eip emu' = wrap32 (eip emu + fixed_length f) /\
    forall bytes,
      exec f (with_memory emu bytes) = Returns (with_memory emu' bytes).
Proof.
  intros Hc. eexists. split; [apply (conditional_jump_exec _ _ _ Hc)|].
  split; [reflexivity|].
  intros bytes.
  assert (Hb : tested_condition f (with_memory emu bytes) = Some false)
    by (destruct f; exact Hc).
  rewrite (conditional_jump_exec _ _ _ Hb). reflexivity.
Qed.

Lemma jump_not_taken_fixed_length_witness :
  exists emu',
    exec Fn.jz32 jz32_untaken = Returns emu' /\
    eip emu' = wrap32 (eip jz32_untaken + fixed_length Fn.jz32) /\
    forall bytes,
      exec Fn.jz32 (with_memory jz32_untaken bytes) =
      Returns (with_memory emu' bytes).
Proof.
  apply (jump_not_taken_fixed_length Fn.jz32 jz32_untaken). reflexivity.
Defined.

(** C10: the two handlers of a pair test complementary conditions, and in
    every state one of them adds the displacement and the fixed length to
    [eip] while the other adds the fixed length only. *)
Theorem jump_pair_complement (p : jump_pair) (emu : Emulator) :
  let f := (pair_handlers p).1 in
  let g := (pair_handlers p).2 in
  let len := fixed_length f in
  let d := displacement f emu in
  exists taken : bool,
    tested_condition f emu = Some taken /\
    tested_condition g emu = Some (negb taken) /\
    exec f emu = Returns (add_eip emu ((if taken then d else 0) + len)) /\
    exec g emu = Returns (add_eip emu ((if taken then 0 else d) + len)).
Proof.
  destruct p; simpl;
    (eexists; split; [reflexivity|]; split; [reflexivity|]);
    unfold_jumps.
  all: try (split; reflexivity).
  destruct (is_carry emu), (is_zero emu); split; reflexivity.
Qed.

(** ** Opcode groups *)

(** C9: a grouped opcode whose sub-opcode is not implemented ends the
    process with status 1 after printing the group opcode and the
    sub-opcode; no state is returned and no sub-handler runs. *)
Theorem unimplemented_subop_is_fatal (g : group) (emu : Emulator) :
  implemented g (encoded_subop emu) = false ->
  exec (group_handler g) emu =
  Exits 1
    ("Not implemented: Op: " +:+ group_opcode g +:+ " with ModR/M Op: "
       +:+ pretty (encoded_subop emu) +:+ newline).
Proof.
  intros Hsub.
  destruct g; simpl in *; [unfold code_83|unfold code_ff];
    after_opcode emu; rewrite Ho.
  - destruct (encoded_subop emu =? 0); [discriminate|].
    destruct (encoded_subop emu =? 5); [discriminate|].
    destruct (encoded_subop emu =? 7); [discriminate|].
    reflexivity.
  - rewrite Hsub. reflexivity.
Qed.

Lemma unimplemented_subop_is_fatal_witness :
  exec (group_handler Group83) or_eax_3 =
  Exits 1
    ("Not implemented: Op: " +:+ group_opcode Group83 +:+ " with ModR/M Op: "
       +:+ pretty (encoded_subop or_eax_3) +:+ newline).
Proof. apply (unimplemented_subop_is_fatal Group83 or_eax_3). reflexivity. Defined.

Example or_eax_3_message :
  code_83 or_eax_3 =
  Exits 1 ("Not implemented: Op: 83 with ModR/M Op: 1" +:+ newline).
Proof. vm_compute. reflexivity. Qed.

(** ** Flags of the group 0x83 forms *)

Lemma eflags_sub_rm32_imm8 emu modrm :
  let rm32 := get_rm32 emu modrm in
  let imm8 := wrap32 (get_sign_code8 emu 0) in
  eflags (sub_rm32_imm8 emu modrm) =
  eflags (update_eflags_sub emu rm32 imm8 (wrap64 (rm32 - imm8))).
Proof.
  unfold sub_rm32_imm8. apply eflags_update_eflags_sub_ext.
  rewrite eflags_set_rm32. reflexivity.
Qed.

Lemma eflags_cmp_rm32_imm8 emu modrm :
  let rm32 := get_rm32 emu modrm in
  let imm8 := wrap32 (get_sign_code8 emu 0) in
  eflags (cmp_rm32_imm8 emu modrm) =
  eflags (update_eflags_sub emu rm32 imm8 (wrap64 (rm32 - imm8))).
Proof. reflexivity. Qed.

(** C8: [add rm32, r32] and [add rm32, imm8], the latter also when reached
    through opcode 0x83 with sub-opcode 0, leave [eflags] as it was; the
    [sub] and [cmp] forms of the group leave in [eflags] what
    [update_eflags_sub] computes from the operand and the immediate. *)
Theorem add_leaves_eflags (emu : Emulator) (modrm : ModRM) :
  eflags (add_rm32_r32 emu) = eflags emu /\
  eflags (add_rm32_imm8 emu modrm) = eflags emu /\
  (encoded_subop emu = 0 ->
   exists emu', code_83 emu = Returns emu' /\ eflags emu' = eflags emu) /\
  (let rm32 := get_rm32 emu modrm in
   let imm8 := wrap32 (get_sign_code8 emu 0) in
   let updated := update_eflags_sub emu rm32 imm8 (wrap64 (rm32 - imm8)) in
   eflags (sub_rm32_imm8 emu modrm) = eflags updated /\
   eflags (cmp_rm32_imm8 emu modrm) = eflags updated).
Proof.
  split; [|split; [|split]].
  - unfold add_rm32_r32.
    pose proof (eflags_parse_modrm (add_eip emu 1)) as H.
    destruct (parse_modrm (add_eip emu 1)) as [emu1 m].
    rewrite eflags_set_rm32. exact H.
  - unfold add_rm32_imm8. rewrite eflags_set_rm32. reflexivity.
  - intros Hsub. unfold code_83.
    pose proof (eflags_parse_modrm (add_eip emu 1)) as H.
    after_opcode emu. rewrite Ho, Hsub. simpl.
    eexists; split; [reflexivity|].
    unfold add_rm32_imm8. rewrite eflags_set_rm32. exact H.
  - split; [apply eflags_sub_rm32_imm8 | apply eflags_cmp_rm32_imm8].
Qed.

Lemma add_leaves_eflags_witness :
  exists emu',
    code_83 add_eax_3 = Returns emu' /\ eflags emu' = eflags add_eax_3.
Proof.
  apply (proj1 (proj2 (proj2
    (add_leaves_eflags add_eax_3 (parse_modrm (add_eip add_eax_3 1)).2)))).
  reflexivity.
Defined.

(** Unlike [add eax, 3], [sub eax, 3] does change [eflags] when it starts
    with the carry flag set. *)
Example sub_changes_eflags :
  let emu := with_eflags sub_eax_3 1 in
  (exists emu', code_83 emu = Returns emu' /\ eflags emu' = 0) /\
  eflags emu = 1.
Proof. split; [eexists; split; vm_compute; reflexivity | reflexivity]. Qed.

(** C7: at opcode 0x83, sub-opcode 7 ([cmp]) leaves registers and memory,
    and so the operand, as they were, and leaves the same [eflags] as
    sub-opcode 5 ([sub]) run from the same flags on the same operand value
    and immediate; with operand 10 and immediate 3, [sub] stores 7 and both
    clear carry and zero. *)
Theorem cmp_imm8_flags_as_sub (emu5 emu7 : Emulator) :
  let d5 := parse_modrm (add_eip emu5 1) in
  let d7 := parse_modrm (add_eip emu7 1) in
  encoded_subop emu5 = 5 ->
  encoded_subop emu7 = 7 ->
  eflags emu5 = eflags emu7 ->
  get_rm32 d5.1 d5.2 = get_rm32 d7.1 d7.2 ->
  get_sign_code8 d5.1 0 = get_sign_code8 d7.1 0 ->
  exists r5 r7,
    code_83 emu5 = Returns r5 /\
    code_83 emu7 = Returns r7 /\
    eflags r7 = eflags r5 /\
    registers r7 = registers emu7 /\
    memory r7 = memory emu7 /\
    get_rm32 r7 d7.2 = get_rm32 d7.1 d7.2 /\
    (get_rm32 d5.1 d5.2 = 10 -> wrap32 (get_sign_code8 d5.1 0) = 3 ->
     r5 = update_eflags_sub (set_rm32 (add_eip d5.1 1) d5.2 7) 10 3 7 /\
     is_carry r5 = false /\ is_zero r5 = false /\
     is_carry r7 = false /\ is_zero r7 = false).
Proof.
  intros d5 d7 H5 H7 Hflags Hrm Himm.
  pose proof (eflags_parse_modrm (add_eip emu5 1)) as Hf5.
  pose proof (eflags_parse_modrm (add_eip emu7 1)) as Hf7.
  pose proof (registers_parse_modrm (add_eip emu7 1)) as Hr7.
  pose proof (memory_parse_modrm (add_eip emu7 1)) as Hm7.
  pose proof (parse_modrm_after_opcode emu5) as (_ & _ & Ho5).
  pose proof (parse_modrm_after_opcode emu7) as (_ & _ & Ho7).
  simpl in Ho5, Ho7. rewrite H5 in Ho5. rewrite H7 in Ho7.
  unfold code_83. fold d5 d7 in Hf5, Hf7, Hr7, Hm7, Ho5, Ho7 |- *.
  destruct d5 as [e5 m5], d7 as [e7 m7]. simpl in *.
  rewrite Ho5, Ho7. simpl.
  exists (sub_rm32_imm8 e5 m5), (cmp_rm32_imm8 e7 m7).
  split; [reflexivity|]. split; [reflexivity|].
  assert (Heq : eflags (cmp_rm32_imm8 e7 m7) = eflags (sub_rm32_imm8 e5 m5)).
  { rewrite eflags_sub_rm32_imm8, eflags_cmp_rm32_imm8.
    rewrite Hrm, Himm. apply eflags_update_eflags_sub_ext. congruence. }
  split; [exact Heq|].
  split; [exact Hr7|]. split; [exact Hm7|].
  split; [apply get_rm32_ext; reflexivity|].
  intros H10 H3.
  assert (Hsub : sub_rm32_imm8 e5 m5 =
                 update_eflags_sub (set_rm32 (add_eip e5 1) m5 7) 10 3 7).
  { unfold sub_rm32_imm8. rewrite H10, H3. reflexivity. }
  split; [exact Hsub|].
  unfold is_carry, is_zero. rewrite Heq, Hsub.
  unfold update_eflags_sub.
  repeat split; flag_bits; reflexivity.
Qed.

Lemma cmp_imm8_flags_as_sub_witness :
  let d5 := parse_modrm (add_eip sub_eax_3 1) in
  let d7 := parse_modrm (add_eip cmp_eax_3 1) in
  exists r5 r7,
    code_83 sub_eax_3 = Returns r5 /\
    code_83 cmp_eax_3 = Returns r7 /\
    eflags r7 = eflags r5 /\
    registers r7 = registers cmp_eax_3 /\
    memory r7 = memory cmp_eax_3 /\
    get_rm32 r7 d7.2 = get_rm32 d7.1 d7.2 /\
    (get_rm32 d5.1 d5.2 = 10 -> wrap32 (get_sign_code8 d5.1 0) = 3 ->
     r5 = update_eflags_sub (set_rm32 (add_eip d5.1 1) d5.2 7) 10 3 7 /\
     is_carry r5 = false /\ is_zero r5 = false /\
     is_carry r7 = false /\ is_zero r7 = false).
Proof.
  apply (cmp_imm8_flags_as_sub sub_eax_3 cmp_eax_3); vm_compute; reflexivity.
Defined.

(** [sub eax, 3] with [EAX = 10] leaves 7 in [EAX]; [cmp eax, 3] leaves 10;
    both clear carry and zero. *)
Example sub_cmp_10_3 :
  exists r5 r7,
    code_83 sub_eax_3 = Returns r5 /\ code_83 cmp_eax_3 = Returns r7 /\
    get_register32 r5 EAX = 7 /\ get_register32 r7 EAX = 10 /\
    (is_carry r5, is_zero r5) = (false, false) /\
    (is_carry r7, is_zero r7) = (false, false).
Proof. do 2 eexists. repeat split; vm_compute; reflexivity. Qed.

(** ** Dispatch table *)

Lemma init_instructions_tabulated :
  init_instructions = (fun n => tabulated (Z.of_nat n)) <$> seq 0 256.
Proof. vm_compute. reflexivity. Qed.

Lemma instructions_tabulated (op : Z) :
  0 <= op < 256 -> instructions op = tabulated op.
Proof.
  intros Hop. unfold instructions.
  rewrite init_instructions_tabulated, list_lookup_fmap.
  rewrite lookup_seq_lt by lia. simpl. rewrite Z2Nat.id by lia. reflexivity.
Qed.

Ltac tabulated_cases :=
  unfold tabulated;
  repeat (match goal with |- context [if ?b then _ else _] => destruct b end;
          [intros [= ?]; subst; reflexivity|]);
  discriminate.

(** The table has no entry for the prefix byte 0x0F, and none of its 256
    entries is a near conditional jump. *)
Lemma near_jumps_not_in_table :
  instructions 0x0F = None /\
  Forall (fun entry => forall f, entry = Some f -> is_near f = false)
    init_instructions.
Proof.
  split; [reflexivity|].
  rewrite init_instructions_tabulated.
  apply Forall_forall. intros entry Hin f ->.
  apply list_elem_of_fmap in Hin as (n & Hn & _).
  revert Hn. generalize (Z.of_nat n). intros op. tabulated_cases.
Qed.

(** C5, as [init_instructions] builds the table: every opcode byte is bound
    as tabulated, 0x50-0x57 to [push_r32], 0x58-0x5F to [pop_r32] and
    0xB8-0xBF to [mov_r32_imm32] among them, and every other byte is empty;
    0x0F is one of the empty entries and no entry is a near conditional
    jump. *)
Theorem dispatch_table_bindings (op : Z) :
  0 <= op < 256 ->
  instructions op = tabulated op /\
  (in_range 0x50 0x57 op = true -> instructions op = Some Fn.push_r32) /\
  (in_range 0x58 0x5F op = true -> instructions op = Some Fn.pop_r32) /\
  (in_range 0xB8 0xBF op = true -> instructions op = Some Fn.mov_r32_imm32) /\
  (forall f, instructions op = Some f -> is_near f = false) /\
  instructions 0x0F = None.
Proof.
  intros Hop. rewrite (instructions_tabulated op Hop).
  split; [reflexivity|].
  split; [|split; [|split; [|split; [|reflexivity]]]].
  - unfold tabulated. intros ->. reflexivity.
  - unfold tabulated, in_range. intros H.
    destruct ((0x50 <=? op) && (op <=? 0x57)) eqn:E; [lia|].
    rewrite H. reflexivity.
  - unfold tabulated, in_range. intros H.
    destruct ((0x50 <=? op) && (op <=? 0x57)) eqn:E1; [lia|].
    destruct ((0x58 <=? op) && (op <=? 0x5F)) eqn:E2; [lia|].
    rewrite H. reflexivity.
  - intros f. tabulated_cases.
Qed.

Lemma dispatch_table_bindings_witness :
  instructions 0x50 = tabulated 0x50 /\
  (in_range 0x50 0x57 0x50 = true -> instructions 0x50 = Some Fn.push_r32) /\
  (in_range 0x58 0x5F 0x50 = true -> instructions 0x50 = Some Fn.pop_r32) /\
  (in_range 0xB8 0xBF 0x50 = true ->
   instructions 0x50 = Some Fn.mov_r32_imm32) /\
  (forall f, instructions 0x50 = Some f -> is_near f = false) /\
  instructions 0x0F = None.
Proof. apply (dispatch_table_bindings 0x50). lia. Defined.

(** ** Reading back what was written *)

Lemma length_memory_set_memory8 emu a v :
  length (memory (set_memory8 emu a v)) = length (memory emu).
Proof. unfold set_memory8. simpl. apply length_insert. Qed.

Lemma get_memory8_set_memory8_eq emu a v :
  (Z.to_nat a < length (memory emu))%nat ->
  get_memory8 (set_memory8 emu a v) a = wrap8 v.
Proof.
  intros Ha. unfold get_memory8, set_memory8. simpl.
  rewrite list_lookup_insert_eq by exact Ha. simpl. apply wrap8_idem.
Qed.

Lemma get_memory8_set_memory8_ne emu a a' v :
  Z.to_nat a <> Z.to_nat a' ->
  get_memory8 (set_memory8 emu a v) a' = get_memory8 emu a'.
Proof.
  intros Ha. unfold get_memory8, set_memory8. simpl.
  rewrite list_lookup_insert_ne by exact Ha. reflexivity.
Qed.

(** Four bytes written inside memory read back as the value modulo 2^32. *)
Lemma get_memory32_set_memory32 emu a v :
  0 <= a -> a + 4 <= Z.of_nat (length (memory emu)) -> a + 3 < 2 ^ 32 ->
  get_memory32 (set_memory32 emu a v) a = wrap32 v.
Proof.
  intros Ha Hlen Htop.
  change (wrap32 v) with (v mod 2 ^ (4 * 8)).
  rewrite <- little_endian_to_Z_to_little_endian by lia.
  unfold get_memory32, set_memory32.
  change (Z_to_little_endian 4 8 v) with
    [Z.land v (Z.ones 8); Z.land (Z.shiftr v 8) (Z.ones 8);
     Z.land (Z.shiftr (Z.shiftr v 8) 8) (Z.ones 8);
     Z.land (Z.shiftr (Z.shiftr (Z.shiftr v 8) 8) 8) (Z.ones 8)].
  assert (Hbyte : forall x, wrap8 (Z.land x (Z.ones 8)) = Z.land x (Z.ones 8)).
  { intros x. rewrite Z.land_ones by lia. apply wrap8_idem. }
  cbn [zip zip_with foldl fmap list_fmap fst snd].
  rewrite !wrap32_small by lia.
  repeat f_equal.
  all: repeat (rewrite get_memory8_set_memory8_ne by lia).
  all: rewrite get_memory8_set_memory8_eq
         by (rewrite ?length_memory_set_memory8; lia).
  all: apply Hbyte.
Qed.

Lemma get_register32_set_register32 emu i v :
  (Z.to_nat i < length (registers emu))%nat ->
  get_register32 (set_register32 emu i v) i = wrap32 v.
Proof.
  intros Hi. unfold get_register32, set_register32. simpl.
  rewrite list_lookup_insert_eq by exact Hi. simpl. apply wrap32_idem.
Qed.

Lemma get_register32_set_memory32 emu a v i :
  get_register32 (set_memory32 emu a v) i = get_register32 emu i.
Proof. unfold get_register32. rewrite registers_set_memory32. reflexivity. Qed.

Lemma get_register32_range emu i : 0 <= get_register32 emu i < 2 ^ 32.
Proof. apply wrap32_range. Qed.

(** ** Call and return *)

Lemma push32_effect emu value sp :
  get_register32 emu ESP = sp -> stack_slot_ok emu sp ->
  get_register32 (push32 emu value) ESP = sp - 4 /\
  get_memory32 (push32 emu value) (sp - 4) = wrap32 value.
Proof.
  intros Hsp [Hslot Hregs].
  pose proof (get_register32_range emu ESP) as Hr. rewrite Hsp in Hr.
  unfold push32. rewrite Hsp, (wrap32_small (sp - 4)) by lia.
  split.
  - rewrite get_register32_set_memory32.
    rewrite get_register32_set_register32
      by (rewrite Hregs; unfold ESP; simpl; lia).
    apply wrap32_small; lia.
  - apply get_memory32_set_memory32; simpl; lia.
Qed.

Lemma pop32_effect emu sp :
  get_register32 emu ESP = sp - 4 -> 4 <= sp < 2 ^ 32 ->
  length (registers emu) = 8%nat ->
  (pop32 emu).1 = get_memory32 emu (sp - 4) /\
  get_register32 (pop32 emu).2 ESP = sp.
Proof.
  intros Hsp Hrange Hregs. unfold pop32. simpl. rewrite Hsp.
  split; [reflexivity|].
  rewrite get_register32_set_register32
    by (rewrite Hregs; unfold ESP; simpl; lia).
  rewrite wrap32_idem. replace (sp - 4 + 4) with sp by lia.
  apply wrap32_small; lia.
Qed.

(** C6: [call rel32] at [eip = A] with [ESP = S] and encoded offset [d],
    the stack slot below [S] being inside memory, leaves [ESP = S - 4],
    the 32-bit value [A + 5] at that address and [eip = A + 5 + d] (modulo
    2^32); a [ret] run in any later state whose [ESP] is [S - 4] again and
    whose slot still holds that value leaves [eip = A + 5] and [ESP = S]. *)
Theorem call_ret_pairing (emu : Emulator) (A S d : Z) :
  eip emu = A ->
  get_register32 emu ESP = S ->
  get_sign_code32 emu 1 = d ->
  stack_slot_ok emu S ->
  let called := call_rel32 emu in
  get_register32 called ESP = S - 4 /\
  get_memory32 called (S - 4) = wrap32 (A + 5) /\
  eip called = wrap32 (A + 5 + d) /\
  forall later,
    get_register32 later ESP = S - 4 ->
    get_memory32 later (S - 4) = get_memory32 called (S - 4) ->
    length (registers later) = 8%nat ->
    eip (ret later) = wrap32 (A + 5) /\ get_register32 (ret later) ESP = S.
Proof.
  intros <- <- <- Hok called.
  pose proof (get_register32_range emu ESP) as Hr.
  destruct (push32_effect emu (wrap32 (eip emu + 5)) _ eq_refl Hok)
    as [Hesp Hmem].
  rewrite wrap32_idem in Hmem.
  split; [exact Hesp|].
  split; [exact Hmem|].
  split.
  - subst called. unfold call_rel32.
    rewrite eip_add_eip, eip_push32. f_equal. lia.
  - intros later Hlsp Hlmem Hlregs.
    destruct Hok as [Hslot _].
    destruct (pop32_effect later _ Hlsp ltac:(lia) Hlregs) as [Hv Hsp'].
    unfold ret. destruct (pop32 later) as [value popped]. simpl in Hv, Hsp'.
    split.
    + simpl. rewrite Hv, Hlmem. exact Hmem.
    + exact Hsp'.
Qed.

Lemma call_ret_pairing_witness :
  let called := call_rel32 call_3 in
  get_register32 called ESP = 16 - 4 /\
  get_memory32 called (16 - 4) = wrap32 (0 + 5) /\
  eip called = wrap32 (0 + 5 + 3) /\
  forall later,
    get_register32 later ESP = 16 - 4 ->
    get_memory32 later (16 - 4) = get_memory32 called (16 - 4) ->
    length (registers later) = 8%nat ->
    eip (ret later) = wrap32 (0 + 5) /\ get_register32 (ret later) ESP = 16.
Proof.
  apply (call_ret_pairing call_3 0 16 3);
    [reflexivity | reflexivity | reflexivity | ].
  split; [simpl; lia | reflexivity].
Defined.

(** [call +3] at address 0 followed at once by [ret]: the call jumps to 8,
    the return comes back to 5 with the stack pointer at 16 again. *)
Example call_3_then_ret :
  eip (call_rel32 call_3) = 8 /\
  eip (ret (call_rel32 call_3)) = 5 /\
  get_register32 (ret (call_rel32 call_3)) ESP = 16.
Proof. vm_compute. repeat split; reflexivity. Qed.

(** * Further properties of the handlers *)

Ltac all_flag_bits :=
  unfold CARRY_BIT, ZERO_BIT, SIGN_BIT, OVERFLOW_BIT;
  repeat first [ rewrite testbit_set_flag_eq by lia
               | rewrite testbit_set_flag_ne by lia ].

Lemma update_eflags_sub_bits (emu : Emulator) (a b : Z) :
  0 <= a < 2 ^ 32 -> 0 <= b < 2 ^ 32 ->
  let emu' := update_eflags_sub emu a b (wrap64 (a - b)) in
  is_zero emu' = (a =? b) /\
  is_carry emu' = (a <? b) /\
  differ (is_sign emu') (is_overflow emu') = (signed32 a <? signed32 b).
Proof.
  intros Ha Hb emu'. subst emu'.
  unfold is_zero, is_carry, is_sign, is_overflow, update_eflags_sub.
  rewrite wrap32_wrap64, wrap64_sub_borrow, wrap32_sub_zero by assumption.
  all_flag_bits.
  split; [reflexivity|]. split; [reflexivity|].
  pose proof (wrap32_range (a - b)) as Hr.
  assert (Hw : wrap32 (a - b) = if a <? b then a - b + 2 ^ 32 else a - b).
  { unfold wrap32. destruct (Z.ltb_spec a b).
    - symmetry. apply Z.mod_unique with (q := -1); lia.
    - apply Z.mod_small; lia. }
  rewrite !signed32_small by lia.
  rewrite !(testbit_top 31) by lia.
  rewrite Hw. clear Hw Hr. unfold differ.
  destruct (Z.ltb_spec a b);
    repeat match goal with
           | |- context [?x <=? ?y] => destruct (Z.leb_spec x y)
           end; cbn;
    match goal with |- _ = (?x <? ?y) => destruct (Z.ltb_spec x y) end;
    try reflexivity; lia.
Qed.

Lemma get_memory8_range emu a : 0 <= get_memory8 emu a < 2 ^ 8.
Proof. unfold get_memory8, wrap8. apply Z.mod_pos_bound. lia. Qed.

Lemma get_memory32_range emu a : 0 <= get_memory32 emu a < 2 ^ 32.
Proof.
  unfold get_memory32.
  change (2 ^ 32) with (2 ^ (Z.of_nat (length
    ((fun i => get_memory8 emu (wrap32 (a + i))) <$> [0; 1; 2; 3])) * 8)).
  apply little_endian_to_Z_bound; [lia|].
  apply Forall_fmap, Forall_forall. intros i _. apply get_memory8_range.
Qed.

Lemma get_rm32_range emu modrm : 0 <= get_rm32 emu modrm < 2 ^ 32.
Proof.
  unfold get_rm32. destruct (_ =? 3);
    [apply get_register32_range | apply get_memory32_range].
Qed.

Lemma signed32_inj_range a b :
  0 <= a < 2 ^ 32 -> 0 <= b < 2 ^ 32 ->
  (signed32 a <? signed32 b) = (if Z.eqb a b then false else signed32 a <? signed32 b)
  /\ (signed32 a = signed32 b -> a = b).
Proof.
  intros Ha Hb. rewrite !signed32_small by lia.
  destruct (Z.eqb_spec a b) as [->|Hne].
  - split; [apply Z.ltb_irrefl | reflexivity].
  - split; [reflexivity|].
    destruct (Z.leb_spec (2 ^ 31) a), (Z.leb_spec (2 ^ 31) b); lia.
Qed.

(** What each conditional jump tests once the flags come from subtracting
    [b] from [a]. *)
Lemma tested_condition_after_sub f rel emu a b :
  branch_relation f = Some rel ->
  0 <= a < 2 ^ 32 -> 0 <= b < 2 ^ 32 ->
  tested_condition f (update_eflags_sub emu a b (wrap64 (a - b))) =
  Some (rel a b).
Proof.
  intros Hrel Ha Hb.
  destruct (update_eflags_sub_bits emu a b Ha Hb) as (Hz & Hc & Hl).
  destruct (signed32_inj_range a b Ha Hb) as [_ Hinj].
  assert (Heq : Bool.eqb
            (is_sign (update_eflags_sub emu a b (wrap64 (a - b))))
            (is_overflow (update_eflags_sub emu a b (wrap64 (a - b)))) =
          negb (signed32 a <? signed32 b)).
  { rewrite <- Hl. unfold differ. rewrite negb_involutive. reflexivity. }
  destruct f; simpl in Hrel; try discriminate; injection Hrel as <-;
    simpl tested_condition; rewrite ?Hz, ?Hc, ?Hl, ?Heq; f_equal.
  all: repeat match goal with
         | |- context [?x =? ?y] => destruct (Z.eqb_spec x y)
         | |- context [?x <? ?y] => destruct (Z.ltb_spec x y)
         | |- context [?x <=? ?y] => destruct (Z.leb_spec x y)
         end; cbn; try reflexivity; try lia.
  all: try (exfalso; match goal with H : ?x <> ?y |- _ => apply H, Hinj; lia end).
  all: subst; lia.
Qed.

(** X1: a conditional jump run on the state [cmp r32, rm32] leaves is taken
    exactly when the compared values stand in the jump's relation: equal
    for [jz], unsigned below for [jc], below-or-equal for [jna32], above for
    [ja32], signed less for [jl], less-or-equal for [jle], greater for
    [jg32], and the negations for [jnz] and [jnc]. *)
Theorem compare_then_branch f rel emu :
  branch_relation f = Some rel ->
  let d := parse_modrm (add_eip emu 1) in
  let r32 := get_r32 d.1 d.2 in
  let rm32 := get_rm32 d.1 d.2 in
  let compared := cmp_r32_rm32 emu in
  exec f compared =
  Returns (add_eip compared
             ((if rel r32 rm32 then displacement f compared else 0)
              + fixed_length f)).
Proof.
  intros Hrel d r32 rm32 compared.
  apply conditional_jump_exec.
  subst compared. unfold cmp_r32_rm32. fold d.
  destruct d as [e m] eqn:Hd. simpl in r32, rm32.
  apply tested_condition_after_sub;
    [exact Hrel | apply get_register32_range | apply get_rm32_range].
Qed.

Lemma compare_then_branch_witness :
  let compared := cmp_r32_rm32 cmp_eax_ecx_jl in
  exec Fn.jl compared =
  Returns (add_eip compared
             ((if signed32 10 <? signed32 0
               then displacement Fn.jl compared else 0)
              + fixed_length Fn.jl)).
Proof. exact (compare_then_branch Fn.jl _ cmp_eax_ecx_jl eq_refl). Defined.

Lemma length_memory_set_memory32 emu a v :
  length (memory (set_memory32 emu a v)) = length (memory emu).
Proof.
  unfold set_memory32.
  generalize (zip [0; 1; 2; 3] (Z_to_little_endian 4 8 v)).
  intros l. revert emu.
  induction l as [|ib l IH]; intros emu; simpl; [reflexivity|].
  rewrite IH. apply length_memory_set_memory8.
Qed.

Lemma untouched_add_eip emu n : untouched (add_eip emu n) = untouched emu.
Proof. reflexivity. Qed.

Lemma untouched_with_eip emu v : untouched (with_eip emu v) = untouched emu.
Proof. reflexivity. Qed.

Lemma untouched_set_register32 emu i v :
  untouched (set_register32 emu i v) = untouched emu.
Proof. unfold untouched, set_register32. simpl. rewrite length_insert. reflexivity. Qed.

Lemma untouched_set_memory32 emu a v :
  untouched (set_memory32 emu a v) = untouched emu.
Proof.
  unfold untouched. rewrite length_memory_set_memory32.
  rewrite set_memory32_memory_only. reflexivity.
Qed.

Lemma untouched_set_rm32 emu modrm v :
  untouched (set_rm32 emu modrm v) = untouched emu.
Proof.
  unfold set_rm32. destruct (_ =? 3);
    [apply untouched_set_register32 | apply untouched_set_memory32].
Qed.

Lemma untouched_push32 emu v : untouched (push32 emu v) = untouched emu.
Proof.
  unfold push32. rewrite untouched_set_memory32.
  apply untouched_set_register32.
Qed.

Lemma untouched_pop32 emu : untouched (pop32 emu).2 = untouched emu.
Proof. apply untouched_set_register32. Qed.

Lemma untouched_update_eflags_sub emu a b r :
  untouched (update_eflags_sub emu a b r) = untouched emu.
Proof. reflexivity. Qed.

Lemma untouched_parse_modrm emu : untouched (parse_modrm emu).1 = untouched emu.
Proof. rewrite parse_modrm_state. reflexivity. Qed.

Ltac decode_with lemma emu :=
  let H := fresh "Hdecoded" in
  let e := fresh "decoded_emu" in
  let m := fresh "decoded" in
  pose proof (lemma (add_eip emu 1)) as H;
  destruct (parse_modrm (add_eip emu 1)) as [e m];
  simpl in H.

Ltac untouched_steps :=
  repeat first
    [ rewrite untouched_add_eip
    | rewrite untouched_with_eip
    | rewrite untouched_set_rm32
    | rewrite untouched_set_register32
    | rewrite untouched_push32
    | rewrite untouched_update_eflags_sub ].

(** X2: a handler reached through the table, that is bound by
    [init_instructions] to the opcode byte at [eip], changes neither the
    segment registers, the control registers, the descriptor-table register
    or the exception field, nor the number of registers or of memory
    bytes, when it returns. *)
Theorem handlers_keep_untouched f emu emu' :
  instructions (get_code8 emu 0) = Some f ->
  exec f emu = Returns emu' ->
  segment_registers emu' = segment_registers emu /\
  control_registers emu' = control_registers emu /\
  gdtr emu' = gdtr emu /\
  exception emu' = exception emu /\
  length (registers emu') = length (registers emu) /\
  length (memory emu') = length (memory emu).
Proof.
  intros _ Hexec.
  assert (H : untouched emu' = untouched emu).
  { destruct f; simpl in Hexec;
      try (injection Hexec as <-); unfold_jumps;
      try reflexivity.
    - unfold mov_r32_imm32. unfold untouched. simpl.
      rewrite length_insert. reflexivity.
    - unfold mov_rm32_imm32. decode_with untouched_parse_modrm emu.
      untouched_steps. exact Hdecoded.
    - unfold mov_rm32_r32. decode_with untouched_parse_modrm emu.
      untouched_steps. exact Hdecoded.
    - unfold mov_r32_rm32, set_r32. decode_with untouched_parse_modrm emu.
      untouched_steps. exact Hdecoded.
    - unfold add_rm32_r32. decode_with untouched_parse_modrm emu.
      untouched_steps. exact Hdecoded.
    - unfold cmp_r32_rm32. decode_with untouched_parse_modrm emu.
      untouched_steps. exact Hdecoded.
    - unfold code_83 in Hexec. decode_with untouched_parse_modrm emu.
      destruct (_ =? 0); [|destruct (_ =? 5); [|destruct (_ =? 7)]];
        try discriminate; injection Hexec as <-;
        unfold add_rm32_imm8, sub_rm32_imm8, cmp_rm32_imm8;
        untouched_steps; exact Hdecoded.
    - unfold code_ff in Hexec. decode_with untouched_parse_modrm emu.
      destruct (_ =? 0); try discriminate; injection Hexec as <-.
      unfold inc_rm32. untouched_steps. exact Hdecoded.
    - unfold push_r32. untouched_steps. reflexivity.
    - unfold push_imm32. untouched_steps. reflexivity.
    - unfold push_imm8. untouched_steps. reflexivity.
    - unfold pop_r32. pose proof (untouched_pop32 emu) as Hp.
      destruct (pop32 emu) as [v e]. untouched_steps. exact Hp.
    - unfold call_rel32. untouched_steps. reflexivity.
    - unfold ret. pose proof (untouched_pop32 emu) as Hp.
      destruct (pop32 emu) as [v e]. untouched_steps. exact Hp.
    - unfold leave.
      pose proof (untouched_pop32 (set_register32 emu ESP (get_register32 emu EBP))) as Hp.
      destruct (pop32 _) as [v e]. simpl in Hp. untouched_steps. rewrite Hp.
      apply untouched_set_register32. }
  unfold untouched in H. injection H as -> -> -> -> -> ->. repeat split.
Qed.

Lemma handlers_keep_untouched_witness :
  let emu' := push_imm32 push_42_pop_eax in
  segment_registers emu' = segment_registers push_42_pop_eax /\
  control_registers emu' = control_registers push_42_pop_eax /\
  gdtr emu' = gdtr push_42_pop_eax /\
  exception emu' = exception push_42_pop_eax /\
  length (registers emu') = length (registers push_42_pop_eax) /\
  length (memory emu') = length (memory push_42_pop_eax).
Proof.
  apply (handlers_keep_untouched Fn.push_imm32); reflexivity.
Defined.

Lemma eflags_push32 emu v : eflags (push32 emu v) = eflags emu.
Proof. unfold push32. rewrite eflags_set_memory32. reflexivity. Qed.

Ltac eflags_steps :=
  repeat first
    [ rewrite eflags_set_rm32
    | rewrite eflags_push32
    | progress cbn [eflags add_eip with_eip with_registers set_register32
                    set_r32 pop32 fst snd] ].

(** X3: only [cmp r32, rm32] and the 0x83 group touch [eflags]; every other
    handler, [add rm32, r32] and [inc rm32] included, returns with [eflags]
    as it was. *)
Theorem eflags_changed_only_by_compare_and_sub f emu emu' :
  sets_flags f = false ->
  exec f emu = Returns emu' ->
  eflags emu' = eflags emu.
Proof.
  intros Hf Hexec.
  destruct f; try discriminate Hf; simpl in Hexec;
    try (injection Hexec as <-); unfold_jumps; try reflexivity.
  all: unfold mov_rm32_imm32, mov_rm32_r32, mov_r32_rm32, add_rm32_r32,
         code_ff in *;
       decode_with eflags_parse_modrm emu.
  all: try (destruct (_ =? 0); try discriminate; injection Hexec as <-;
            unfold inc_rm32).
  all: eflags_steps; exact Hdecoded.
Qed.

Lemma eflags_changed_only_by_compare_and_sub_witness :
  eflags (push_imm32 push_42_pop_eax) = eflags push_42_pop_eax.
Proof.
  apply (eflags_changed_only_by_compare_and_sub Fn.push_imm32); reflexivity.
Defined.

Lemma memory_set_register32 emu i v :
  memory (set_register32 emu i v) = memory emu.
Proof. reflexivity. Qed.

(** X4: reached through the table, that is bound by [init_instructions] to
    the opcode byte at [eip], the jumps, [mov r32, imm32], [mov r32, rm32],
    [cmp r32, rm32], [pop r32], [ret] and [leave] return with memory byte
    for byte as it was. *)
Theorem handlers_without_store_keep_memory f emu emu' :
  instructions (get_code8 emu 0) = Some f ->
  never_stores f = true ->
  exec f emu = Returns emu' ->
  memory emu' = memory emu.
Proof.
  intros _ Hf Hexec.
  destruct f; try discriminate Hf; simpl in Hexec;
    try (injection Hexec as <-); unfold_jumps; try reflexivity.
  - unfold mov_r32_rm32. decode_with memory_parse_modrm emu. exact Hdecoded.
  - unfold cmp_r32_rm32. decode_with memory_parse_modrm emu. exact Hdecoded.
Qed.

Lemma handlers_without_store_keep_memory_witness :
  memory (pop_r32 pop_eax) = memory pop_eax.
Proof.
  apply (handlers_without_store_keep_memory Fn.pop_r32); reflexivity.
Defined.

(** The two unconditional jumps and the seventeen conditional jumps change
    [eip] and nothing else in the state, taken or not. *)
Lemma jumps_change_only_eip f emu emu' :
  is_jump f = true ->
  exec f emu = Returns emu' ->
  emu' = with_eip emu (eip emu').
Proof.
  intros Hf Hexec.
  destruct f; try discriminate Hf; simpl in Hexec;
    injection Hexec as <-; reflexivity.
Qed.

(** X5: [cmp r32, rm32] leaves registers and memory as they were, sets the
    zero flag exactly when the register equals the operand, and the carry
    flag exactly when it is below it as an unsigned number. *)
Theorem cmp_r32_rm32_keeps_operands emu :
  registers (cmp_r32_rm32 emu) = registers emu /\
  memory (cmp_r32_rm32 emu) = memory emu /\
  let d := parse_modrm (add_eip emu 1) in
  let r32 := get_r32 d.1 d.2 in
  let rm32 := get_rm32 d.1 d.2 in
  is_zero (cmp_r32_rm32 emu) = (r32 =? rm32) /\
  is_carry (cmp_r32_rm32 emu) = (r32 <? rm32).
Proof.
  unfold cmp_r32_rm32.
  pose proof (registers_parse_modrm (add_eip emu 1)) as Hr.
  pose proof (memory_parse_modrm (add_eip emu 1)) as Hm.
  destruct (parse_modrm (add_eip emu 1)) as [e m]. simpl in *.
  split; [exact Hr|]. split; [exact Hm|].
  destruct (update_eflags_sub_bits e (get_r32 e m) (get_rm32 e m))
    as (Hz & Hc & _);
    [apply get_register32_range | apply get_rm32_range |].
  split; assumption.
Qed.

(** ** Jump targets *)

Lemma signed8_byte z :
  signed8 z = if wrap8 z <? 128 then wrap8 z else wrap8 z - 256.
Proof.
  unfold signed8.
  assert (H : 0 <= wrap8 z < 2 ^ 8) by (apply Z.mod_pos_bound; lia).
  rewrite (testbit_top 7) by (simpl; lia).
  change (2 ^ 7) with 128. change (2 ^ 8) with 256.
  destruct (Z.leb_spec 128 (wrap8 z)), (Z.ltb_spec (wrap8 z) 128);
    try reflexivity; lia.
Qed.

Lemma signed8_range z : - 128 <= signed8 z < 128.
Proof.
  rewrite signed8_byte.
  assert (H : 0 <= wrap8 z < 2 ^ 8) by (apply Z.mod_pos_bound; lia).
  destruct (Z.ltb_spec (wrap8 z) 128); lia.
Qed.

Lemma signed32_range z : - 2 ^ 31 <= signed32 z < 2 ^ 31.
Proof.
  pose proof (wrap32_range z) as H.
  unfold signed32. rewrite (testbit_top 31) by (simpl; lia).
  destruct (Z.leb_spec (2 ^ 31) (wrap32 z)); lia.
Qed.

Lemma wrap32_signed32 z : wrap32 (signed32 z) = wrap32 z.
Proof.
  unfold signed32. destruct (Z.testbit _ 31); [|apply wrap32_idem].
  unfold wrap32. rewrite <- (Z.mod_add (z mod 2 ^ 32 - 2 ^ 32) 1) by lia.
  replace (z mod 2 ^ 32 - 2 ^ 32 + 1 * 2 ^ 32) with (z mod 2 ^ 32) by lia.
  apply Z.mod_mod. lia.
Qed.

Lemma wrap32_add_r (a b : Z) : wrap32 (a + wrap32 b) = wrap32 (a + b).
Proof. unfold wrap32. apply Zplus_mod_idemp_r. Qed.

(** X6: when the condition a conditional jump tests holds, the handler
    returns with [eip] advanced (modulo 2^32) by the fixed length plus the
    displacement, which is a signed byte for the short forms and a signed
    32-bit number for the near forms. *)
Theorem jump_taken_adds_displacement f emu :
  tested_condition f emu = Some true ->
  exists emu',
    exec f emu = Returns emu' /\
    eip emu' = wrap32 (eip emu + fixed_length f + displacement f emu) /\
    (if is_near f then - 2 ^ 31 <= displacement f emu < 2 ^ 31
     else - 128 <= displacement f emu < 128).
Proof.
  intros Hc. eexists. split; [apply (conditional_jump_exec _ _ _ Hc)|].
  split; [simpl; f_equal; lia|].
  unfold displacement. destruct (is_near f);
    [apply signed32_range | apply signed8_range].
Qed.

Lemma jump_taken_adds_displacement_witness :
  exists emu',
    exec Fn.jz32 jz32_taken = Returns emu' /\
    eip emu' =
      wrap32 (eip jz32_taken + fixed_length Fn.jz32
              + displacement Fn.jz32 jz32_taken) /\
    (if is_near Fn.jz32
     then - 2 ^ 31 <= displacement Fn.jz32 jz32_taken < 2 ^ 31
     else - 128 <= displacement Fn.jz32 jz32_taken < 128).
Proof. apply (jump_taken_adds_displacement Fn.jz32 jz32_taken). reflexivity. Defined.

(** X7: [short_jump] reads its offset byte as a signed number: bytes from
    0x80 up jump backwards, and with the byte 0xFE the instruction jumps to
    itself and returns the state it was given. *)
Theorem short_jump_sign_extends emu :
  let b := get_code8 emu 1 in
  eip (short_jump emu) =
    wrap32 (eip emu + 2 + (if b <? 128 then b else b - 256)) /\
  (b = 0xFE -> 0 <= eip emu < 2 ^ 32 -> short_jump emu = emu).
Proof.
  intros b.
  assert (Hb : wrap8 b = b).
  { subst b. unfold get_code8, get_memory8. apply wrap8_idem. }
  assert (Hoff : signed8 (get_sign_code8 emu 1) =
                 if b <? 128 then b else b - 256).
  { unfold get_sign_code8. fold b. rewrite (signed8_byte b), Hb.
    destruct (b <? 128) eqn:E; rewrite signed8_byte.
    - rewrite Hb, E. reflexivity.
    - assert (0 <= b < 256) by (rewrite <- Hb; apply Z.mod_pos_bound; lia).
      apply Z.ltb_ge in E.
      replace (wrap8 (b - 256)) with b.
      + destruct (Z.ltb_spec b 128); [lia|reflexivity].
      + unfold wrap8. apply Z.mod_unique with (q := -1); lia. }
  unfold short_jump. rewrite Hoff. split.
  - simpl. f_equal. lia.
  - intros E Heip. rewrite E. simpl.
    unfold add_eip. replace (eip emu + (254 - 256 + 2)) with (eip emu) by lia.
    rewrite wrap32_small by lia. destruct emu; reflexivity.
Qed.

Lemma short_jump_sign_extends_witness : short_jump jmp_self = jmp_self.
Proof.
  apply (proj2 (short_jump_sign_extends jmp_self)); [reflexivity|].
  cbn. lia.
Defined.

(** X8: [near_jump] lands on [eip + 5] plus the four offset bytes read as
    an unsigned number, modulo 2^32, and [call_rel32] lands on the same
    address. *)
Theorem near_jump_target_modulo emu :
  eip (near_jump emu) = wrap32 (eip emu + 5 + get_code32 emu 1) /\
  eip (call_rel32 emu) = eip (near_jump emu).
Proof.
  assert (H : eip (near_jump emu) = wrap32 (eip emu + 5 + get_code32 emu 1)).
  { unfold near_jump, get_sign_code32. simpl.
    rewrite <- (wrap32_add_r _ (signed32 _ + 5)).
    rewrite <- (wrap32_add_l (signed32 _)), !wrap32_signed32.
    rewrite wrap32_add_l, wrap32_add_r. f_equal. lia. }
  split; [exact H|].
  rewrite H. unfold call_rel32, get_sign_code32.
  rewrite eip_add_eip, eip_push32.
  rewrite <- (wrap32_add_r _ (signed32 _ + 5)).
  rewrite <- (wrap32_add_l (signed32 _)), wrap32_signed32.
  rewrite wrap32_add_l, wrap32_add_r. f_equal. lia.
Qed.

Lemma get_register32_set_register32_ne emu i j v :
  Z.to_nat i <> Z.to_nat j ->
  get_register32 (set_register32 emu i v) j = get_register32 emu j.
Proof.
  intros H. unfold get_register32, set_register32. simpl.
  rewrite list_lookup_insert_ne by exact H. reflexivity.
Qed.

Lemma esp_push32 emu v :
  length (registers emu) = 8%nat ->
  get_register32 (push32 emu v) ESP = wrap32 (get_register32 emu ESP - 4).
Proof.
  intros Hregs. unfold push32.
  rewrite get_register32_set_memory32, get_register32_set_register32
    by (rewrite Hregs; unfold ESP; simpl; lia).
  apply wrap32_idem.
Qed.

Lemma esp_pop32 emu :
  length (registers emu) = 8%nat ->
  get_register32 (pop32 emu).2 ESP = wrap32 (get_register32 emu ESP + 4).
Proof.
  intros Hregs. unfold pop32. simpl.
  rewrite get_register32_set_register32
    by (rewrite Hregs; unfold ESP; simpl; lia).
  apply wrap32_idem.
Qed.

Lemma length_registers_push32 emu v :
  length (registers (push32 emu v)) = length (registers emu).
Proof.
  unfold push32. rewrite registers_set_memory32.
  unfold set_register32. simpl. apply length_insert.
Qed.

Lemma get_register32_add_eip emu n i :
  get_register32 (add_eip emu n) i = get_register32 emu i.
Proof. reflexivity. Qed.

(** X9: with the eight registers in place, the three pushes and
    [call_rel32] lower [ESP] by 4 and [ret] and a [pop r32] into a register
    other than [ESP] raise it by 4, modulo 2^32 and whatever memory
    holds. *)
Theorem stack_pointer_moves_by_four f emu k :
  stack_effect f emu = Some k ->
  length (registers emu) = 8%nat ->
  exists emu',
    exec f emu = Returns emu' /\
    get_register32 emu' ESP = wrap32 (get_register32 emu ESP + k).
Proof.
  intros Hk Hregs.
  destruct f; simpl in Hk; try discriminate;
    try (injection Hk as <-); simpl exec; eexists; (split; [reflexivity|]).
  - unfold push_r32. rewrite get_register32_add_eip. apply esp_push32, Hregs.
  - unfold push_imm32. rewrite get_register32_add_eip. apply esp_push32, Hregs.
  - unfold push_imm8. rewrite get_register32_add_eip. apply esp_push32, Hregs.
  - destruct (Z.eqb_spec (wrap8 (get_code8 emu 0 - 0x58)) ESP) as [|Hne];
      [discriminate|]. injection Hk as <-.
    assert (Hr : 0 <= wrap8 (get_code8 emu 0 - 0x58))
      by (apply Z.mod_pos_bound; lia).
    unfold pop_r32. pose proof (esp_pop32 emu Hregs) as Hp.
    destruct (pop32 emu) as [v e]. simpl in Hp.
    rewrite get_register32_add_eip, get_register32_set_register32_ne
      by (unfold ESP in *; lia).
    exact Hp.
  - unfold call_rel32. rewrite get_register32_add_eip. apply esp_push32, Hregs.
  - unfold ret. pose proof (esp_pop32 emu Hregs) as Hp.
    destruct (pop32 emu) as [v e]. exact Hp.
Qed.

Lemma stack_pointer_moves_by_four_witness :
  exists emu',
    exec Fn.push_imm8 push_ff = Returns emu' /\
    get_register32 emu' ESP = wrap32 (get_register32 push_ff ESP + -4).
Proof.
  apply (stack_pointer_moves_by_four Fn.push_imm8 push_ff (-4)); reflexivity.
Defined.

Lemma push_handler_exec f emu v :
  pushed_value f emu = Some v ->
  0 <= v < 2 ^ 32 /\
  exists len, exec f emu = Returns (add_eip (push32 emu v) len).
Proof.
  intros Hv. destruct f; simpl in Hv; try discriminate; injection Hv as <-.
  - split; [apply get_register32_range|]. eexists. reflexivity.
  - split; [apply get_memory32_range|]. eexists. reflexivity.
  - split; [|eexists; reflexivity].
    pose proof (get_memory8_range emu (wrap32 (eip emu + 1))) as H.
    unfold get_code8. change (2 ^ 8) with 256 in H. lia.
Qed.

Lemma get_memory32_add_eip emu n a :
  get_memory32 (add_eip emu n) a = get_memory32 emu a.
Proof. reflexivity. Qed.

(** X10: after a push whose stack slot lies inside memory, a [pop r32]
    fetched from the resulting state loads the pushed value into its
    register, puts [ESP] back where it was before the push unless it pops
    into [ESP], and leaves memory alone. *)
Theorem push_then_pop f emu v S j :
  pushed_value f emu = Some v ->
  get_register32 emu ESP = S ->
  stack_slot_ok emu S ->
  forall pushed,
    exec f emu = Returns pushed ->
    get_code8 pushed 0 = 0x58 + j ->
    0 <= j < 8 ->
    let popped := pop_r32 pushed in
    get_register32 popped j = v /\
    (j <> ESP -> get_register32 popped ESP = S) /\
    memory popped = memory pushed.
Proof.
  intros Hv HS Hok pushed Hexec Hop Hj popped.
  destruct (push_handler_exec f emu v Hv) as (Hrange & len & Hpush).
  rewrite Hpush in Hexec. injection Hexec as <-.
  destruct (push32_effect emu v S HS Hok) as [Hesp Hmem].
  destruct Hok as [Hslot Hregs].
  pose proof (get_register32_range emu ESP) as Hr. rewrite HS in Hr.
  assert (Hregs' : length (registers (add_eip (push32 emu v) len)) = 8%nat).
  { unfold add_eip, with_eip. cbn [registers].
    rewrite length_registers_push32. exact Hregs. }
  subst popped. unfold pop_r32. rewrite Hop.
  replace (wrap8 (0x58 + j - 0x58)) with j
    by (unfold wrap8; rewrite Z.mod_small; lia).
  destruct (pop32_effect (add_eip (push32 emu v) len) S Hesp ltac:(lia) Hregs')
    as [Hval Hsp].
  destruct (pop32 (add_eip (push32 emu v) len)) as [value e] eqn:Hpop.
  simpl in Hval, Hsp.
  assert (Hlen : length (registers e) = 8%nat).
  { unfold pop32 in Hpop. injection Hpop as _ <-. simpl.
    rewrite length_insert. exact Hregs'. }
  assert (Hmem' : memory e = memory (add_eip (push32 emu v) len)).
  { unfold pop32 in Hpop. injection Hpop as _ <-. reflexivity. }
  rewrite get_memory32_add_eip, Hmem in Hval.
  split; [|split].
  - rewrite get_register32_add_eip, get_register32_set_register32
      by (rewrite Hlen; lia).
    rewrite Hval, wrap32_idem. apply wrap32_small, Hrange.
  - intros Hne. rewrite get_register32_add_eip,
      get_register32_set_register32_ne by (unfold ESP in *; lia).
    exact Hsp.
  - exact Hmem'.
Qed.

Lemma push_then_pop_witness :
  let popped := pop_r32 (push_imm32 push_42_pop_eax) in
  get_register32 popped 0 = 42 /\
  (0 <> ESP -> get_register32 popped ESP = 16) /\
  memory popped = memory (push_imm32 push_42_pop_eax).
Proof.
  apply (push_then_pop Fn.push_imm32 push_42_pop_eax 42 16 0);
    first [ reflexivity | lia | split; [simpl; lia | reflexivity] ].
Defined.

(** X11: after a push whose stack slot lies inside memory, [ret] jumps to
    the pushed value and puts [ESP] back where it was before the push. *)
Theorem push_then_ret f emu v S :
  pushed_value f emu = Some v ->
  get_register32 emu ESP = S ->
  stack_slot_ok emu S ->
  exists pushed,
    exec f emu = Returns pushed /\
    eip (ret pushed) = v /\
    get_register32 (ret pushed) ESP = S.
Proof.
  intros Hv HS Hok.
  destruct (push_handler_exec f emu v Hv) as (Hrange & len & Hpush).
  eexists. split; [exact Hpush|].
  destruct (push32_effect emu v S HS Hok) as [Hesp Hmem].
  destruct Hok as [Hslot Hregs].
  pose proof (get_register32_range emu ESP) as Hr. rewrite HS in Hr.
  assert (Hregs' : length (registers (add_eip (push32 emu v) len)) = 8%nat).
  { unfold add_eip, with_eip. cbn [registers].
    rewrite length_registers_push32. exact Hregs. }
  destruct (pop32_effect (add_eip (push32 emu v) len) S Hesp ltac:(lia) Hregs')
    as [Hval Hsp].
  unfold ret. destruct (pop32 (add_eip (push32 emu v) len)) as [value e].
  simpl in Hval, Hsp. rewrite get_memory32_add_eip, Hmem in Hval.
  split; [|exact Hsp].
  simpl. rewrite Hval. apply wrap32_small, Hrange.
Qed.

Lemma push_then_ret_witness :
  exists pushed,
    exec Fn.push_imm32 push_42_pop_eax = Returns pushed /\
    eip (ret pushed) = 42 /\
    get_register32 (ret pushed) ESP = 16.
Proof.
  apply (push_then_ret Fn.push_imm32 push_42_pop_eax 42 16);
    first [ reflexivity | split; [simpl; lia | reflexivity] ].
Defined.

(** X12: [push_imm8] pushes its immediate byte zero-extended: the 32-bit
    value on the stack is the byte itself, between 0 and 255, and for a
    byte from 0x80 up it is not the sign-extended immediate. *)
Theorem push_imm8_zero_extends emu S :
  get_register32 emu ESP = S ->
  stack_slot_ok emu S ->
  let b := get_code8 emu 1 in
  get_memory32 (push_imm8 emu) (S - 4) = b /\
  0 <= b < 256 /\
  (128 <= b ->
   get_memory32 (push_imm8 emu) (S - 4) <> wrap32 (get_sign_code8 emu 1)).
Proof.
  intros HS Hok b.
  assert (Hb : 0 <= b < 256).
  { pose proof (get_memory8_range emu (wrap32 (eip emu + 1))) as H.
    subst b. unfold get_code8. change (2 ^ 8) with 256 in H. lia. }
  destruct (push32_effect emu b S HS Hok) as [_ Hmem].
  assert (Hpushed : get_memory32 (push_imm8 emu) (S - 4) = b).
  { unfold push_imm8. rewrite get_memory32_add_eip. fold b.
    rewrite Hmem. apply wrap32_small. lia. }
  split; [exact Hpushed|]. split; [exact Hb|].
  intros Hneg. rewrite Hpushed.
  unfold get_sign_code8. fold b. rewrite signed8_byte.
  assert (Hw : wrap8 b = b) by (apply Z.mod_small; simpl; lia).
  rewrite Hw. destruct (Z.ltb_spec b 128); [lia|].
  replace (wrap32 (b - 256)) with (b - 256 + 2 ^ 32);
    [lia|].
  unfold wrap32. apply Z.mod_unique with (q := -1); lia.
Qed.

Lemma push_imm8_zero_extends_witness :
  let b := get_code8 push_ff 1 in
  get_memory32 (push_imm8 push_ff) (16 - 4) = b /\
  0 <= b < 256 /\
  (128 <= b ->
   get_memory32 (push_imm8 push_ff) (16 - 4)
   <> wrap32 (get_sign_code8 push_ff 1)).
Proof.
  apply (push_imm8_zero_extends push_ff 16);
    first [ reflexivity | split; [simpl; lia | reflexivity] ].
Defined.

Lemma leave_registers emu B :
  get_register32 emu EBP = B ->
  length (registers emu) = 8%nat ->
  get_register32 (leave emu) EBP = get_memory32 emu B /\
  get_register32 (leave emu) ESP = wrap32 (B + 4).
Proof.
  intros HB Hregs. unfold leave. rewrite HB.
  pose proof (get_register32_range emu EBP) as Hr. rewrite HB in Hr.
  assert (Hesp : get_register32 (set_register32 emu ESP B) ESP = B).
  { rewrite get_register32_set_register32
      by (rewrite Hregs; unfold ESP; simpl; lia).
    apply wrap32_small, Hr. }
  unfold pop32. rewrite Hesp. cbn [fst snd].
  split.
  - rewrite get_register32_add_eip, get_register32_set_register32
      by (simpl; rewrite !length_insert, Hregs; unfold EBP; simpl; lia).
    apply wrap32_small, get_memory32_range.
  - rewrite get_register32_add_eip, get_register32_set_register32_ne
      by (unfold EBP, ESP; lia).
    rewrite get_register32_set_register32
      by (simpl; rewrite length_insert, Hregs; unfold ESP; simpl; lia).
    apply wrap32_idem.
Qed.

(** X13: [leave] loads [EBP] with the 32-bit value at the address [EBP]
    held, leaves [ESP] four above that address (modulo 2^32), advances
    [eip] by 1 and leaves memory alone. *)
Theorem leave_effect emu B :
  get_register32 emu EBP = B ->
  length (registers emu) = 8%nat ->
  get_register32 (leave emu) EBP = get_memory32 emu B /\
  get_register32 (leave emu) ESP = wrap32 (B + 4) /\
  eip (leave emu) = wrap32 (eip emu + 1) /\
  memory (leave emu) = memory emu.
Proof.
  intros HB Hregs.
  destruct (leave_registers emu B HB Hregs) as [Hebp Hesp].
  split; [exact Hebp|]. split; [exact Hesp|].
  unfold leave. destruct (pop32 _) as [value popped] eqn:Hpop.
  unfold pop32 in Hpop. injection Hpop as _ <-.
  split; reflexivity.
Qed.

Lemma leave_effect_witness :
  get_register32 (leave prologue) EBP = get_memory32 prologue 8 /\
  get_register32 (leave prologue) ESP = wrap32 (8 + 4) /\
  eip (leave prologue) = wrap32 (eip prologue + 1) /\
  memory (leave prologue) = memory prologue.
Proof. apply (leave_effect prologue 8); reflexivity. Defined.

Lemma encoded_rm_range emu : 0 <= encoded_rm emu < 8.
Proof.
  unfold encoded_rm. change 0x07 with (Z.ones 3).
  rewrite Z.land_ones by lia. apply Z.mod_pos_bound. lia.
Qed.

Lemma parse_modrm_register_direct emu :
  encoded_mod emu = 3 ->
  parse_modrm (add_eip emu 1) =
  (with_eip emu (wrap32 (eip emu + 2)),
   mkModRM 3 (encoded_subop emu) (encoded_rm emu) 0 1).
Proof.
  intros Hmod. unfold parse_modrm.
  rewrite get_code8_add_eip. change (1 + 0) with 1.
  fold (encoded_mod emu) (encoded_subop emu) (encoded_rm emu).
  rewrite Hmod. change (3 =? 1) with false. change (3 =? 2) with false.
  cbv iota. f_equal. unfold add_eip, with_eip. cbn [eip eflags registers
    segment_registers control_registers memory gdtr exception].
  rewrite wrap32_add_l.
  replace (eip emu + 1 + 1) with (eip emu + 2) by lia. reflexivity.
Qed.

Lemma get_code8_with_eip emu a i :
  get_code8 (with_eip emu (wrap32 (eip emu + a))) i = get_code8 emu (a + i).
Proof. apply (get_code8_add_eip emu a i). Qed.

(** Writing register [i] of eight and reading every register back. *)
Lemma set_register32_reads emu i v :
  0 <= i < 8 -> length (registers emu) = 8%nat ->
  get_register32 (set_register32 emu i v) i = wrap32 v /\
  (forall j, 0 <= j -> j <> i ->
     get_register32 (set_register32 emu i v) j = get_register32 emu j).
Proof.
  intros Hi Hregs. split.
  - apply get_register32_set_register32. rewrite Hregs. lia.
  - intros j Hj Hne. apply get_register32_set_register32_ne. lia.
Qed.

(** X14: with a register-direct operand (mod 3) every handler that writes
    its ModR/M operand puts the result in the register [rm] and leaves the
    other registers and memory alone: the immediate for [mov rm32, imm32],
    the source register for [mov rm32, r32], the sum modulo 2^32 for
    [add rm32, r32] and [add rm32, imm8] with the immediate sign-extended,
    the difference for [sub rm32, imm8], the old value for [cmp] and the
    successor for [inc]. *)
Theorem register_direct_destination f emu w :
  register_direct_result f emu = Some w ->
  encoded_mod emu = 3 ->
  length (registers emu) = 8%nat ->
  exists emu',
    exec f emu = Returns emu' /\
    get_register32 emu' (encoded_rm emu) = w /\
    (forall j, 0 <= j -> j <> encoded_rm emu ->
       get_register32 emu' j = get_register32 emu j) /\
    memory emu' = memory emu.
Proof.
  intros Hw Hmod Hregs.
  pose proof (encoded_rm_range emu) as Hrm.
  pose proof (parse_modrm_register_direct emu Hmod) as Hparse.
  set (e2 := with_eip emu (wrap32 (eip emu + 2))) in *.
  assert (Hstore : forall e v,
            registers e = registers emu -> memory e = memory emu ->
            0 <= v < 2 ^ 32 ->
            let e' := set_rm32 e
                        (mkModRM 3 (encoded_subop emu) (encoded_rm emu) 0 1) v in
            get_register32 e' (encoded_rm emu) = v /\
            (forall j, 0 <= j -> j <> encoded_rm emu ->
               get_register32 e' j = get_register32 emu j) /\
            memory e' = memory emu).
  { intros e v Hr Hm Hv e'. subst e'. unfold set_rm32. simpl.
    assert (Hlen : length (registers e) = 8%nat) by (rewrite Hr; exact Hregs).
    destruct (set_register32_reads e (encoded_rm emu) v Hrm Hlen) as [Hi Ho].
    split; [rewrite Hi; apply wrap32_small, Hv|].
    split; [|exact Hm].
    intros j Hj Hne. rewrite (Ho j Hj Hne).
    unfold get_register32. rewrite Hr. reflexivity. }
  assert (Hgetrm : forall e, registers e = registers emu ->
            get_rm32 e (mkModRM 3 (encoded_subop emu) (encoded_rm emu) 0 1) =
            get_register32 emu (encoded_rm emu)).
  { intros e Hr. unfold get_rm32, get_register32. simpl. rewrite Hr.
    reflexivity. }
  destruct f; simpl in Hw; try discriminate; simpl exec.
  - (* mov rm32, imm32 *)
    injection Hw as <-. eexists. split; [reflexivity|].
    unfold mov_rm32_imm32. rewrite Hparse.
    replace (get_code32 e2 0) with (get_code32 emu 2)
      by (unfold get_code32, e2; simpl; rewrite wrap32_add_l; do 2 f_equal; lia).
    apply Hstore; [reflexivity | reflexivity | apply get_memory32_range].
  - (* mov rm32, r32 *)
    injection Hw as <-. eexists. split; [reflexivity|].
    unfold mov_rm32_r32. rewrite Hparse.
    apply Hstore; [reflexivity | reflexivity | apply get_register32_range].
  - (* add rm32, r32 *)
    injection Hw as <-. eexists. split; [reflexivity|].
    unfold add_rm32_r32. rewrite Hparse.
    rewrite (Hgetrm e2 eq_refl).
    apply Hstore; [reflexivity | reflexivity | apply wrap32_range].
  - (* group 0x83 *)
    unfold code_83. rewrite Hparse. cbn [opcode].
    assert (Himm : get_sign_code8 e2 0 = get_sign_code8 emu 2).
    { unfold get_sign_code8, e2. rewrite get_code8_with_eip.
      reflexivity. }
    destruct (encoded_subop emu =? 0);
      [|destruct (encoded_subop emu =? 5);
        [|destruct (encoded_subop emu =? 7); [|discriminate]]];
      injection Hw as <-; (eexists; split; [reflexivity|]).
    + unfold add_rm32_imm8. rewrite (Hgetrm e2 eq_refl), Himm.
      rewrite wrap32_add_r.
      apply Hstore; [reflexivity | reflexivity | apply wrap32_range].
    + unfold sub_rm32_imm8. rewrite (Hgetrm e2 eq_refl), Himm.
      set (v := get_register32 emu (encoded_rm emu)).
      set (imm := get_sign_code8 emu 2).
      assert (Hres : wrap32 (wrap64 (v - wrap32 imm)) = wrap32 (v - imm)).
      { rewrite wrap32_wrap64. unfold wrap32.
        rewrite Zminus_mod_idemp_r. reflexivity. }
      destruct (Hstore (add_eip e2 1) (wrap32 (v - imm)) eq_refl eq_refl
                  (wrap32_range _)) as (H1 & H2 & H3).
      assert (Hset : set_rm32 (add_eip e2 1)
                 (mkModRM 3 (encoded_subop emu) (encoded_rm emu) 0 1)
                 (wrap64 (v - wrap32 imm)) =
               set_rm32 (add_eip e2 1)
                 (mkModRM 3 (encoded_subop emu) (encoded_rm emu) 0 1)
                 (wrap32 (v - imm))).
      { unfold set_rm32, set_register32. simpl.
        rewrite Hres, wrap32_idem. reflexivity. }
      rewrite Hset.
      split; [exact H1|]. split; [exact H2 | exact H3].
    + unfold cmp_rm32_imm8. cbn [get_register32 registers memory
        update_eflags_sub set_flag with_eflags add_eip with_eip].
      split; [|split; reflexivity].
      reflexivity.
  - (* group 0xFF *)
    unfold code_ff. rewrite Hparse. cbn [opcode].
    destruct (encoded_subop emu =? 0); [|discriminate].
    injection Hw as <-. eexists. split; [reflexivity|].
    unfold inc_rm32. rewrite (Hgetrm e2 eq_refl).
    apply Hstore; [reflexivity | reflexivity | apply wrap32_range].
Qed.

Lemma register_direct_destination_witness :
  exists emu',
    exec Fn.code_83 sub_eax_3 = Returns emu' /\
    get_register32 emu' (encoded_rm sub_eax_3) = 7 /\
    (forall j, 0 <= j -> j <> encoded_rm sub_eax_3 ->
       get_register32 emu' j = get_register32 sub_eax_3 j) /\
    memory emu' = memory sub_eax_3.
Proof.
  apply (register_direct_destination Fn.code_83 sub_eax_3 7); reflexivity.
Defined.

(** X15: [mov r32, rm32] with a register-direct operand copies the register
    [rm] into the register [reg] and leaves the other registers, memory and
    [eflags] alone. *)
Theorem mov_r32_rm32_loads_register emu :
  encoded_mod emu = 3 ->
  length (registers emu) = 8%nat ->
  let reg := encoded_subop emu in
  let loaded := mov_r32_rm32 emu in
  get_register32 loaded reg = get_register32 emu (encoded_rm emu) /\
  (forall j, 0 <= j -> j <> reg ->
     get_register32 loaded j = get_register32 emu j) /\
  memory loaded = memory emu /\
  eflags loaded = eflags emu.
Proof.
  intros Hmod Hregs reg loaded. subst loaded reg.
  pose proof (encoded_subop_range emu) as Hreg.
  unfold mov_r32_rm32. rewrite (parse_modrm_register_direct emu Hmod).
  unfold set_r32, reg_index, get_rm32. cbn [mod_ opcode rm].
  change (3 =? 3) with true. cbv iota.
  set (e2 := with_eip emu (wrap32 (eip emu + 2))).
  assert (Hlen : length (registers e2) = 8%nat) by exact Hregs.
  destruct (set_register32_reads e2 (encoded_subop emu)
              (get_register32 e2 (encoded_rm emu)) Hreg Hlen) as [Hi Ho].
  split; [rewrite Hi; apply wrap32_idem|].
  split; [exact Ho|]. split; reflexivity.
Qed.

Lemma mov_r32_rm32_loads_register_witness :
  let reg := encoded_subop mov_ecx_eax in
  let loaded := mov_r32_rm32 mov_ecx_eax in
  get_register32 loaded reg = get_register32 mov_ecx_eax (encoded_rm mov_ecx_eax) /\
  (forall j, 0 <= j -> j <> reg ->
     get_register32 loaded j = get_register32 mov_ecx_eax j) /\
  memory loaded = memory mov_ecx_eax /\
  eflags loaded = eflags mov_ecx_eax.
Proof. apply (mov_r32_rm32_loads_register mov_ecx_eax); reflexivity. Defined.

(** X16: run on opcode 0xB8 + i, [mov_r32_imm32] loads register [i] with
    the four bytes after the opcode, leaves the other registers, memory and
    [eflags] alone and advances [eip] by 5. *)
Theorem mov_r32_imm32_loads_register emu i :
  get_code8 emu 0 = 0xB8 + i ->
  0 <= i < 8 ->
  length (registers emu) = 8%nat ->
  let loaded := mov_r32_imm32 emu in
  get_register32 loaded i = get_code32 emu 1 /\
  (forall j, 0 <= j -> j <> i ->
     get_register32 loaded j = get_register32 emu j) /\
  memory loaded = memory emu /\
  eflags loaded = eflags emu /\
  eip loaded = wrap32 (eip emu + 5).
Proof.
  intros Hop Hi Hregs loaded. subst loaded. unfold mov_r32_imm32.
  rewrite Hop.
  replace (wrap8 (0xB8 + i - 0xB8)) with i
    by (unfold wrap8; rewrite Z.mod_small; lia).
  unfold get_register32. cbn [registers add_eip with_eip with_registers].
  split; [|split; [|repeat split]].
  - rewrite list_lookup_insert_eq by (rewrite Hregs; lia). simpl.
    apply wrap32_small, get_memory32_range.
  - intros j Hj Hne. rewrite list_lookup_insert_ne by lia. reflexivity.
Qed.

Lemma mov_r32_imm32_loads_register_witness :
  let loaded := mov_r32_imm32 mov_ecx_42 in
  get_register32 loaded 1 = get_code32 mov_ecx_42 1 /\
  (forall j, 0 <= j -> j <> 1 ->
     get_register32 loaded j = get_register32 mov_ecx_42 j) /\
  memory loaded = memory mov_ecx_42 /\
  eflags loaded = eflags mov_ecx_42 /\
  eip loaded = wrap32 (eip mov_ecx_42 + 5).
Proof.
  apply (mov_r32_imm32_loads_register mov_ecx_42 1);
    first [ reflexivity | lia ].
Defined.

Lemma instructions_bound_range op f :
  instructions op = Some f -> 0 <= op < 256.
Proof.
  unfold instructions. intros H.
  destruct (Z.ltb_spec op 0) as [Hneg|Hpos].
  - rewrite Z2Nat.nonpos in H by lia. discriminate H.
  - destruct (Z.ltb_spec op 256) as [|Hbig]; [lia|].
    rewrite lookup_ge_None_2 in H; [discriminate H|].
    rewrite init_instructions_tabulated, length_fmap, length_seq. lia.
Qed.

(** X17: for every opcode the table binds to [push_r32], [pop_r32] or
    [mov_r32_imm32], the register index the handler computes from the
    opcode byte is one of the eight registers. *)
Theorem table_register_index_in_range op f r :
  instructions op = Some f ->
  opcode_register f op = Some r ->
  0 <= r < 8.
Proof.
  intros Hbound Hr.
  pose proof (instructions_bound_range op f Hbound) as Hop.
  rewrite (instructions_tabulated op Hop) in Hbound.
  unfold tabulated, in_range in Hbound.
  destruct ((0x50 <=? op) && (op <=? 0x57)) eqn:E1.
  { injection Hbound as <-. injection Hr as <-.
    unfold wrap8. rewrite Z.mod_small; lia. }
  destruct ((0x58 <=? op) && (op <=? 0x5F)) eqn:E2.
  { injection Hbound as <-. injection Hr as <-.
    unfold wrap8. rewrite Z.mod_small; lia. }
  destruct ((0xB8 <=? op) && (op <=? 0xBF)) eqn:E3.
  { injection Hbound as <-. injection Hr as <-.
    unfold wrap8. rewrite Z.mod_small; lia. }
  revert Hbound.
  repeat (match goal with |- context [if ?b then _ else _] => destruct b end;
          [intros [= <-]; discriminate Hr|]).
  discriminate.
Qed.

Lemma table_register_index_in_range_witness : 0 <= 7 < 8.
Proof.
  apply (table_register_index_in_range 0x5F Fn.pop_r32 7); reflexivity.
Defined.

(** X18: [mov rm32, r32] with a memory operand without displacement
    (mod 0) whose four bytes lie inside memory stores the register [reg] at
    the address held by the register [rm], where it reads back, and leaves
    the registers and [eflags] alone. *)
Theorem mov_rm32_r32_stores_to_memory emu :
  encoded_mod emu = 0 ->
  let address := get_register32 emu (encoded_rm emu) in
  address + 4 <= Z.of_nat (length (memory emu)) ->
  address + 4 <= 2 ^ 32 ->
  let stored := mov_rm32_r32 emu in
  get_memory32 stored address = get_register32 emu (encoded_subop emu) /\
  registers stored = registers emu /\
  eflags stored = eflags emu /\
  eip stored = wrap32 (eip emu + 2).
Proof.
  intros Hmod address Hlen Htop stored. subst stored.
  pose proof (get_register32_range emu (encoded_rm emu)) as Ha.
  fold address in Ha.
  assert (Hparse : parse_modrm (add_eip emu 1) =
            (with_eip emu (wrap32 (eip emu + 2)),
             mkModRM 0 (encoded_subop emu) (encoded_rm emu) 0 1)).
  { unfold parse_modrm. rewrite get_code8_add_eip. change (1 + 0) with 1.
    fold (encoded_mod emu) (encoded_subop emu) (encoded_rm emu).
    rewrite Hmod. change (0 =? 1) with false. change (0 =? 2) with false.
    cbv iota. f_equal. unfold add_eip, with_eip. cbn [eip eflags registers
      segment_registers control_registers memory gdtr exception].
    rewrite wrap32_add_l.
    replace (eip emu + 1 + 1) with (eip emu + 2) by lia. reflexivity. }
  unfold mov_rm32_r32. rewrite Hparse.
  set (e2 := with_eip emu (wrap32 (eip emu + 2))).
  unfold set_rm32, get_r32, reg_index, calc_memory_address.
  cbn [mod_ opcode rm disp]. change (0 =? 3) with false. cbv iota.
  replace (wrap32 (get_register32 e2 (encoded_rm emu) + 0)) with address
    by (rewrite Z.add_0_r; symmetry; apply wrap32_idem).
  split; [|split; [|split]].
  - rewrite get_memory32_set_memory32 by (simpl; lia).
    apply wrap32_idem.
  - rewrite registers_set_memory32. reflexivity.
  - rewrite eflags_set_memory32. reflexivity.
  - rewrite eip_set_memory32. reflexivity.
Qed.

Lemma mov_rm32_r32_stores_to_memory_witness :
  let address := get_register32 store_eax_at_ecx (encoded_rm store_eax_at_ecx) in
  let stored := mov_rm32_r32 store_eax_at_ecx in
  get_memory32 stored address =
    get_register32 store_eax_at_ecx (encoded_subop store_eax_at_ecx) /\
  registers stored = registers store_eax_at_ecx /\
  eflags stored = eflags store_eax_at_ecx /\
  eip stored = wrap32 (eip store_eax_at_ecx + 2).
Proof.
  apply (mov_rm32_r32_stores_to_memory store_eax_at_ecx);
    first [ reflexivity | vm_compute; discriminate ].
Defined.

(** X19: a conditional jump run on the state [sub rm32, imm8] or
    [cmp rm32, imm8] leaves is taken exactly when the operand's old value
    and the sign-extended immediate stand in the jump's relation. *)
Theorem group_83_then_branch f rel emu :
  branch_relation f = Some rel ->
  (encoded_subop emu =? 5) || (encoded_subop emu =? 7) = true ->
  let d := parse_modrm (add_eip emu 1) in
  let rm32 := get_rm32 d.1 d.2 in
  let imm8 := wrap32 (get_sign_code8 d.1 0) in
  exists emu',
    code_83 emu = Returns emu' /\
    exec f emu' =
    Returns (add_eip emu'
               ((if rel rm32 imm8 then displacement f emu' else 0)
                + fixed_length f)).
Proof.
  intros Hrel Hsub d rm32 imm8.
  pose proof (parse_modrm_after_opcode emu) as (_ & _ & Ho).
  fold d in Ho. unfold code_83. fold d.
  destruct d as [e m]. simpl in Ho, rm32, imm8. rewrite Ho.
  destruct (Z.eqb_spec (encoded_subop emu) 5) as [E5|N5].
  - rewrite E5. simpl. eexists. split; [reflexivity|].
    apply conditional_jump_exec. unfold sub_rm32_imm8.
    apply tested_condition_after_sub;
      [exact Hrel | apply get_rm32_range | apply wrap32_range].
  - destruct (Z.eqb_spec (encoded_subop emu) 7) as [E7|N7];
      [|discriminate Hsub].
    rewrite E7. simpl. eexists. split; [reflexivity|].
    apply conditional_jump_exec. unfold cmp_rm32_imm8.
    apply tested_condition_after_sub;
      [exact Hrel | apply get_rm32_range | apply wrap32_range].
Qed.

Lemma group_83_then_branch_witness :
  let d := parse_modrm (add_eip sub_eax_3_jnz 1) in
  let rm32 := get_rm32 d.1 d.2 in
  let imm8 := wrap32 (get_sign_code8 d.1 0) in
  exists emu',
    code_83 sub_eax_3_jnz = Returns emu' /\
    exec Fn.jnz emu' =
    Returns (add_eip emu'
               ((if negb (rm32 =? imm8) then displacement Fn.jnz emu' else 0)
                + fixed_length Fn.jnz)).
Proof.
  apply (group_83_then_branch Fn.jnz _ sub_eax_3_jnz eq_refl). reflexivity.
Defined.

(** X20: [push ebp] followed by [mov ebp, esp] leaves [EBP] and [ESP] at
    the pushed slot, which holds the old [EBP]; a [leave] run in any later
    state whose [EBP] is that slot again and whose slot still holds that
    value puts [ESP] and [EBP] back where they were before the push. *)
Theorem prologue_then_leave emu S B :
  get_register32 emu ESP = S ->
  get_register32 emu EBP = B ->
  stack_slot_ok emu S ->
  get_code8 emu 0 = 0x55 ->
  let pushed := push_r32 emu in
  encoded_mod pushed = 3 ->
  encoded_subop pushed = ESP ->
  encoded_rm pushed = EBP ->
  let framed := mov_rm32_r32 pushed in
  get_register32 framed EBP = S - 4 /\
  get_register32 framed ESP = S - 4 /\
  get_memory32 framed (S - 4) = B /\
  forall later,
    get_register32 later EBP = S - 4 ->
    get_memory32 later (S - 4) = get_memory32 framed (S - 4) ->
    length (registers later) = 8%nat ->
    get_register32 (leave later) ESP = S /\
    get_register32 (leave later) EBP = B.
Proof.
  intros HS HB Hok Hop pushed Hmod Hreg Hrm framed.
  pose proof (get_register32_range emu ESP) as Hr. rewrite HS in Hr.
  pose proof (get_register32_range emu EBP) as Hb. rewrite HB in Hb.
  assert (Hpushed : pushed = add_eip (push32 emu B) 1).
  { subst pushed. unfold push_r32. rewrite Hop.
    change (wrap8 (0x55 - 0x50)) with EBP. rewrite HB. reflexivity. }
  destruct (push32_effect emu B S HS Hok) as [Hesp Hmem].
  destruct Hok as [Hslot Hregs].
  assert (Hlen : length (registers pushed) = 8%nat).
  { rewrite Hpushed. unfold add_eip, with_eip. cbn [registers].
    rewrite length_registers_push32. exact Hregs. }
  assert (Hframed : framed =
            set_register32 (with_eip pushed (wrap32 (eip pushed + 2))) EBP
              (get_register32 pushed ESP)).
  { subst framed. unfold mov_rm32_r32.
    rewrite (parse_modrm_register_direct pushed Hmod), Hreg, Hrm.
    reflexivity. }
  assert (Hpesp : get_register32 pushed ESP = S - 4)
    by (rewrite Hpushed; exact Hesp).
  assert (Hfm : get_memory32 framed (S - 4) = B).
  { rewrite Hframed, Hpushed.
    change (get_memory32 (push32 emu B) (S - 4) = B).
    rewrite Hmem. apply wrap32_small, Hb. }
  destruct (set_register32_reads
              (with_eip pushed (wrap32 (eip pushed + 2))) EBP
              (get_register32 pushed ESP) ltac:(unfold EBP; lia) Hlen)
    as [Hi Ho].
  rewrite <- Hframed in Hi, Ho.
  split; [rewrite Hi, Hpesp; apply wrap32_small; lia|].
  split; [rewrite (Ho ESP) by (unfold ESP, EBP; lia); exact Hpesp|].
  split; [exact Hfm|].
  intros later Hlb Hlm Hlr.
  destruct (leave_registers later (S - 4) Hlb Hlr) as [Hebp Hesp'].
  split.
  - rewrite Hesp'. replace (S - 4 + 4) with S by lia.
    apply wrap32_small, Hr.
  - rewrite Hebp, Hlm. exact Hfm.
Qed.

Lemma prologue_then_leave_witness :
  let framed := mov_rm32_r32 (push_r32 prologue) in
  get_register32 framed EBP = 16 - 4 /\
  get_register32 framed ESP = 16 - 4 /\
  get_memory32 framed (16 - 4) = 8 /\
  forall later,
    get_register32 later EBP = 16 - 4 ->
    get_memory32 later (16 - 4) = get_memory32 framed (16 - 4) ->
    length (registers later) = 8%nat ->
    get_register32 (leave later) ESP = 16 /\
    get_register32 (leave later) EBP = 8.
Proof.
  apply (prologue_then_leave prologue 16 8);
    first [ reflexivity | split; [simpl; lia | reflexivity] ].
Defined.
